(** * Batch copy-to-file sink: ordered flush and repartitioning

    A shallow embedding of
    [src/execution/operator/persistent/physical_batch_copy_to_file.cpp]
    (class [PhysicalBatchCopyToFile] with its global and local sink states),
    followed by the properties of the operator that are established on it.

    Conventions of the embedding:
    - [idx_t] values are integers in [Z]; arithmetic that the source performs
      on 64-bit words is written with its wrap-around ([idx_cast],
      [int64_cast]);
    - a [std::map<idx_t, V>] is a key-ordered association list;
    - a [unique_ptr<T>] that may be empty is an [option T];
    - the operator's methods run in a state-and-exception monad over the
      global sink state together with a trace of the calls made to the
      mutexes and to the copy function's [prepare_batch] / [flush_batch]
      hooks;
    - a call to a hook is recorded in the trace and returns; what the
      operator does when a hook throws is not part of the embedding, and
      what is stated of a call that prepares or writes is stated of a call
      that returns normally. *)

From Stdlib Require Import ZArith List Bool Lia Permutation.
Import ListNotations.
Local Open Scope Z_scope.

(** ** Machine integers *)

Definition idx_t := Z.

(** Conversion to [idx_t] (unsigned, 64 bits). *)
Definition idx_cast (z : Z) : idx_t := z mod 2 ^ 64.

(** Conversion to [int64_t] (two's complement, 64 bits). *)
Definition int64_cast (z : Z) : Z := (z + 2 ^ 63) mod 2 ^ 64 - 2 ^ 63.

(** [NumericLimits<int64_t>::Maximum()]. *)
Definition INT64_MAX : Z := 2 ^ 63 - 1.

(** [AbsValue<int64_t>]: [a < 0 ? -a : a], in 64-bit signed arithmetic. *)
Definition AbsValue_int64 (a : Z) : Z := if a <? 0 then int64_cast (- a) else a.

(** ** Row collections *)

(** A row is opaque to the operator; it is represented by a tag. *)
Definition Row := nat.

(** [DataChunk]: the rows of one chunk, in order. *)
Definition DataChunk := list Row.

(** Modelled from the spec: [ColumnDataCollection] is declared outside these
    sources.  The spec describes it as "an append-only, chunked container of
    rows with a count and a lazy sequence of fixed-size chunks"; the operator
    uses [Count], [Append] and [Chunks] only. *)
Record ColumnDataCollection := mkCollection { Chunks : list DataChunk }.

(** [make_uniq<ColumnDataCollection>(...)]: a fresh collection without rows. *)
Definition empty_collection : ColumnDataCollection := mkCollection [].

(** The rows of a collection, in order. *)
Definition Rows (c : ColumnDataCollection) : list Row := concat (Chunks c).

(** [chunk.size()] *)
Definition chunk_size (ch : DataChunk) : Z := Z.of_nat (length ch).

(** [collection->Count()] *)
Definition Count (c : ColumnDataCollection) : idx_t := Z.of_nat (length (Rows c)).

(** [collection->Append(append_state, chunk)] *)
Definition Append (c : ColumnDataCollection) (ch : DataChunk) : ColumnDataCollection :=
  mkCollection (Chunks c ++ [ch]).

(** Modelled from the spec: [PreparedBatchData] and the copy function's
    [prepare_batch] hook are declared outside these sources.  The spec has the
    prepared form "opaque to this core beyond its ownership-transfer
    contract"; the collection it was made from is kept so that the rows that
    reach the writer can be read off. *)
Record PreparedBatchData := mkPrepared { prepared_collection : ColumnDataCollection }.

Definition prepare_batch (c : ColumnDataCollection) : PreparedBatchData := mkPrepared c.

(** ** Ordered maps ([std::map<idx_t, V>]) *)

Module StdMap.
Section Ops.
Context {V : Type}.

Definition t := list (idx_t * V).

Fixpoint find (k : idx_t) (m : t) : option V :=
  match m with
  | [] => None
  | (k', v) :: rest => if k =? k' then Some v else find k rest
  end.

(** Position of a new key in the key order. *)
Fixpoint place (k : idx_t) (v : V) (m : t) : t :=
  match m with
  | [] => [(k, v)]
  | (k', v') :: rest =>
      if k <? k' then (k, v) :: m else (k', v') :: place k v rest
  end.

Fixpoint replace (k : idx_t) (v : V) (m : t) : t :=
  match m with
  | [] => []
  | (k', v') :: rest =>
      if k =? k' then (k, v) :: rest else (k', v') :: replace k v rest
  end.

(** [m.insert(make_pair(k, v))]: the map and the [second] component of the
    returned pair; an existing key leaves the map as it is. *)
Definition insert (k : idx_t) (v : V) (m : t) : t * bool :=
  match find k m with
  | Some _ => (m, false)
  | None => (place k v m, true)
  end.

(** [m[k] = v] *)
Definition assign (k : idx_t) (v : V) (m : t) : t :=
  match find k m with
  | Some _ => replace k v m
  | None => place k v m
  end.

(** Keys strictly increase along the list: the iteration order of the map. *)
Fixpoint ordered_from (lo : idx_t) (m : t) : Prop :=
  match m with
  | [] => True
  | (k, _) :: rest => lo < k /\ ordered_from k rest
  end.

Definition ordered (m : t) : Prop :=
  match m with
  | [] => True
  | (k, _) :: rest => ordered_from k rest
  end.
End Ops.
Arguments t : clear implicits.
End StdMap.

(** ** Sink states *)

Record BatchCopyToGlobalState := mkGlobal {
  rows_copied : idx_t;
  batch_size : idx_t;
  raw_batches : StdMap.t ColumnDataCollection;
  batch_data : StdMap.t (option PreparedBatchData);
  active_flush : bool
}.

Record BatchCopyToLocalState := mkLocal {
  collection : option ColumnDataCollection;
  local_rows_copied : idx_t;
  batch_index : idx_t
}.

(** [lstate.partition_info], filled in by the scheduler before [NextBatch]. *)
Record PartitionInfo := mkPartitionInfo {
  next_batch_index : idx_t;
  min_batch_index : idx_t
}.

(** ** Effects *)

Inductive Mutex := m_lock | m_flush_lock.

Inductive Event :=
| Acquire (m : Mutex)
| Release (m : Mutex)
| Prepare (c : ColumnDataCollection)
| Flush (p : PreparedBatchData).

(** What ends a call abnormally:
    - [DuplicateBatchIndex]: the [InternalException] thrown in [AddBatchData]
      and [PrepareBatchData];
    - [NullUniquePtr]: [operator->] on an empty [unique_ptr] (the pointer
      class is declared outside these sources; an empty pointer has no
      object to call [Count()] on, and the call does not return normally);
    - [IndeterminateValue]: a local variable read before it was given a
      value. *)
Inductive Exception :=
| DuplicateBatchIndex (batch_index : idx_t)
| NullUniquePtr
| IndeterminateValue.

Record World := mkWorld {
  gstate : BatchCopyToGlobalState;
  trace : list Event
}.

Inductive Outcome (A : Type) :=
| Done (a : A) (w : World)
| Throw (e : Exception) (w : World).
Arguments Done {A} a w.
Arguments Throw {A} e w.

Definition M (A : Type) := World -> Outcome A.

Definition ret {A} (a : A) : M A := fun w => Done a w.

Definition bind {A B} (m : M A) (k : A -> M B) : M B :=
  fun w => match m w with
           | Done a w' => k a w'
           | Throw e w' => Throw e w'
           end.

Declare Scope batch_scope.
Delimit Scope batch_scope with batch.
Notation "x <- m ;; k" := (bind m (fun x => k))
  (at level 61, m at next level, right associativity) : batch_scope.
Notation "m ;; k" := (bind m (fun _ => k))
  (at level 61, right associativity) : batch_scope.
Local Open Scope batch_scope.

Definition throw {A} (e : Exception) : M A := fun w => Throw e w.

Definition gets {A} (f : BatchCopyToGlobalState -> A) : M A :=
  fun w => Done (f (gstate w)) w.

Definition modify (f : BatchCopyToGlobalState -> BatchCopyToGlobalState) : M unit :=
  fun w => Done tt (mkWorld (f (gstate w)) (trace w)).

Definition emit (e : Event) : M unit :=
  fun w => Done tt (mkWorld (gstate w) (trace w ++ [e])).

(** [lock_guard<mutex> l(m)] around [body]: released on every exit. *)
Definition lock_guard {A} (m : Mutex) (body : M A) : M A :=
  fun w => match (emit (Acquire m) ;; body) w with
           | Done a w' => Done a (mkWorld (gstate w') (trace w' ++ [Release m]))
           | Throw e w' => Throw e (mkWorld (gstate w') (trace w' ++ [Release m]))
           end.

Definition set_rows_copied (n : idx_t) (g : BatchCopyToGlobalState) :=
  mkGlobal n (batch_size g) (raw_batches g) (batch_data g) (active_flush g).
Definition set_raw_batches (m : StdMap.t ColumnDataCollection) (g : BatchCopyToGlobalState) :=
  mkGlobal (rows_copied g) (batch_size g) m (batch_data g) (active_flush g).
Definition set_batch_data (m : StdMap.t (option PreparedBatchData)) (g : BatchCopyToGlobalState) :=
  mkGlobal (rows_copied g) (batch_size g) (raw_batches g) m (active_flush g).
Definition set_active_flush (b : bool) (g : BatchCopyToGlobalState) :=
  mkGlobal (rows_copied g) (batch_size g) (raw_batches g) (batch_data g) b.

(** The world's final state, whichever way the call ended. *)
Definition world_of {A} (o : Outcome A) : World :=
  match o with Done _ w => w | Throw _ w => w end.

(** The collections handed to [prepare_batch] and the rows handed to
    [flush_batch], read off a trace. *)
Definition prepared_of (e : Event) : list ColumnDataCollection :=
  match e with Prepare c => [c] | _ => [] end.
Definition flushed_of (e : Event) : list ColumnDataCollection :=
  match e with Flush p => [prepared_collection p] | _ => [] end.

Definition prepared_collections (tr : list Event) : list ColumnDataCollection :=
  flat_map prepared_of tr.
Definition flushed_collections (tr : list Event) : list ColumnDataCollection :=
  flat_map flushed_of tr.
Definition flushed_rows (tr : list Event) : list Row :=
  flat_map Rows (flushed_collections tr).

(** ** The operator *)

Section Operator.

(** The vector width of a [DataChunk]; the constant is fixed at build time
    outside this file, and the operator is read for any value of it. *)
Variable STANDARD_VECTOR_SIZE : idx_t.

(** *** Sink, Combine, GetData *)

Definition InitializeCollection (l : BatchCopyToLocalState) : BatchCopyToLocalState :=
  mkLocal (Some empty_collection) (local_rows_copied l) (batch_index l).

Definition Sink (chunk : DataChunk) (l : BatchCopyToLocalState) : BatchCopyToLocalState :=
  let l := match collection l with
           | None => InitializeCollection l
           | Some _ => l
           end in
  mkLocal (option_map (fun c => Append c chunk) (collection l))
          (idx_cast (local_rows_copied l + chunk_size chunk))
          (batch_index l).

Definition Combine (l : BatchCopyToLocalState) : M unit :=
  modify (fun g => set_rows_copied (idx_cast (rows_copied g + local_rows_copied l)) g).

(** The value placed in the result chunk: [Value::BIGINT(g.rows_copied)]. *)
Definition GetData (g : BatchCopyToGlobalState) : Z := int64_cast (rows_copied g).

(** *** AddBatchData, PrepareBatchData *)

Definition AddBatchData (batch_index : idx_t) (c : ColumnDataCollection) : M unit :=
  lock_guard m_lock
    (raw <- gets raw_batches ;;
     let entry := StdMap.insert batch_index c raw in
     modify (set_raw_batches (fst entry)) ;;
     if negb (snd entry) then throw (DuplicateBatchIndex batch_index) else ret tt).

Definition PrepareBatchData (batch_index : idx_t) (c : ColumnDataCollection) : M unit :=
  emit (Prepare c) ;;
  let prepared := prepare_batch c in
  lock_guard m_lock
    (bd <- gets batch_data ;;
     let entry := StdMap.insert batch_index (Some prepared) bd in
     modify (set_batch_data (fst entry)) ;;
     if negb (snd entry) then throw (DuplicateBatchIndex batch_index) else ret tt).

(** *** CorrectSizeForBatch *)

Definition CorrectSizeForBatch (collection_size desired_size : idx_t) : bool :=
  idx_cast (AbsValue_int64 (int64_cast (int64_cast collection_size - int64_cast desired_size)))
  <? STANDARD_VECTOR_SIZE.

(** *** RepartitionBatches *)

(** The scan that sums the rows of the entries below [min_index]. *)
Fixpoint candidate_rows_scan (entries : StdMap.t ColumnDataCollection) (min_index : idx_t)
         (candidate_rows : idx_t) : idx_t :=
  match entries with
  | [] => candidate_rows
  | (k, c) :: rest =>
      if k >=? min_index then candidate_rows
      else candidate_rows_scan rest min_index (idx_cast (candidate_rows + Count c))
  end.

(** The scan that moves the entries below [min_index] out of the map:
    [max_batch_index], the collections gathered, and what is left of the map.
    [max_batch_index] is declared without a value: it is [None] until the
    first entry is gathered, and reading it then is [IndeterminateValue]
    (never reached: see [gather_max_batch_index]). *)
Fixpoint gather (entries : StdMap.t ColumnDataCollection) (min_index : idx_t)
         (max_batch_index : option idx_t) (collections : list ColumnDataCollection)
  : option idx_t * list ColumnDataCollection * StdMap.t ColumnDataCollection :=
  match entries with
  | [] => (max_batch_index, collections, [])
  | (k, c) :: rest =>
      if k >=? min_index then (max_batch_index, collections, entries)
      else gather rest min_index (Some k) (collections ++ [c])
  end.

(** The loop over the chunks of one collection. *)
Fixpoint append_chunks (batch_size : idx_t) (chunks : list DataChunk)
         (current_collection : ColumnDataCollection) (result : list ColumnDataCollection)
  : ColumnDataCollection * list ColumnDataCollection :=
  match chunks with
  | [] => (current_collection, result)
  | chunk :: rest =>
      let current_collection := Append current_collection chunk in
      if Count current_collection <? batch_size
      then append_chunks batch_size rest current_collection result
      else append_chunks batch_size rest empty_collection (result ++ [current_collection])
  end.

(** The loop over the gathered collections. *)
Fixpoint repartition (batch_size : idx_t) (collections : list ColumnDataCollection)
         (current_collection : option ColumnDataCollection) (result : list ColumnDataCollection)
  : option ColumnDataCollection * list ColumnDataCollection :=
  match collections with
  | [] => (current_collection, result)
  | c :: rest =>
      match current_collection with
      | None =>
          if CorrectSizeForBatch (Count c) batch_size
          then repartition batch_size rest None (result ++ [c])
          else if Count c <? batch_size
          then repartition batch_size rest (Some c) result
          else let r := append_chunks batch_size (Chunks c) empty_collection result in
               repartition batch_size rest (Some (fst r)) (snd r)
      | Some cur =>
          let r := append_chunks batch_size (Chunks c) cur result in
          repartition batch_size rest (Some (fst r)) (snd r)
      end
  end.

(** The final loop: each result is prepared and written at once. *)
Fixpoint prepare_and_flush (result : list ColumnDataCollection) : M unit :=
  match result with
  | [] => ret tt
  | res :: rest =>
      emit (Prepare res) ;;
      emit (Flush (prepare_batch res)) ;;
      prepare_and_flush rest
  end.

Definition RepartitionBatches (min_index : idx_t) (final : bool) : M unit :=
  lock_guard m_lock
    (raw <- gets raw_batches ;;
     match raw with
     | [] => ret tt
     | _ :: _ =>
       batch_size <- gets batch_size ;;
       if negb final && (candidate_rows_scan raw min_index 0 <? batch_size) then ret tt
       else
         let '(max_batch_index, collections, remaining) := gather raw min_index None [] in
         modify (set_raw_batches remaining) ;;
         let '(current_collection, result) := repartition batch_size collections None [] in
         match current_collection with
         | None => throw NullUniquePtr
         | Some cur =>
             result <-
               (if Count cur >? 0 then
                  if final || CorrectSizeForBatch (Count cur) batch_size
                  then ret (result ++ [cur])
                  else match max_batch_index with
                       | Some k => modify (fun g => set_raw_batches (StdMap.assign k cur (raw_batches g)) g) ;;
                                   ret result
                       | None => throw IndeterminateValue
                       end
                else ret result) ;;
             prepare_and_flush result
         end
     end).

(** *** FlushBatchData *)

Inductive LoopControl := Continue | Break.

(** The block that fetches the next batch to flush, under [gstate.lock]:
    [None] stands for the three [break]s. *)
Definition fetch_next_batch (min_index : idx_t) : M (option PreparedBatchData) :=
  lock_guard m_lock
    (bd <- gets batch_data ;;
     match bd with
     | [] => ret None
     | (k, v) :: rest =>
         if k >=? min_index then ret None
         else match v with
              | None => ret None
              | Some p => modify (set_batch_data rest) ;; ret (Some p)
              end
     end).

(** One turn of the [while] body. *)
Definition FlushBatchData_body (min_index : idx_t) : M LoopControl :=
  lock_guard m_flush_lock
    (modify (set_active_flush true) ;;
     next <- fetch_next_batch min_index ;;
     match next with
     | None => ret Break
     | Some p =>
         emit (Flush p) ;;
         modify (set_active_flush false) ;;
         ret Continue
     end).

(** [while (!gstate.active_flush) { ... }], with a bound on the number of
    turns; [None] when the bound is used up. *)
Fixpoint FlushBatchData_while (turns : nat) (min_index : idx_t) (w : World)
  : option (Outcome unit) :=
  if active_flush (gstate w) then Some (Done tt w)
  else match turns with
       | O => None
       | S turns =>
           match FlushBatchData_body min_index w with
           | Done Continue w' => FlushBatchData_while turns min_index w'
           | Done Break w' => Some (Done tt w')
           | Throw e w' => Some (Throw e w')
           end
       end.

(** Every turn but the last removes an entry of [batch_data], so one turn
    more than the map has entries is enough ([FlushBatchData_while_enough]). *)
Definition FlushBatchData (min_index : idx_t) : M unit :=
  fun w =>
    match FlushBatchData_while (S (length (batch_data (gstate w)))) min_index w with
    | Some o => o
    | None => Done tt w
    end.

(** *** NextBatch, Finalize *)

Definition NextBatch (info : PartitionInfo) (l : BatchCopyToLocalState)
  : M BatchCopyToLocalState :=
  match collection l with
  | Some c =>
      batch_size <- gets batch_size ;;
      (if negb (batch_size =? 0) then
         AddBatchData (batch_index l) c ;;
         RepartitionBatches (min_batch_index info) false
       else
         PrepareBatchData (batch_index l) c) ;;
      FlushBatchData (min_batch_index info)
  | None => ret tt
  end ;;
  ret (InitializeCollection (mkLocal None (local_rows_copied l) (next_batch_index info))).

(** The copy function's optional [copy_to_finalize] hook and the renaming of
    the temporary file act on the written file only and are left out. *)
Definition Finalize : M unit :=
  let min_batch_index := idx_cast INT64_MAX in
  raw <- gets raw_batches ;;
  match raw with
  | [] => ret tt
  | _ :: _ => RepartitionBatches min_batch_index true
  end ;;
  FlushBatchData min_batch_index.

End Operator.

(** ** Initial states and runs *)

(** [GetGlobalSinkState], for a copy function whose desired batch size is
    [desired_batch_size] (0 when it has none). *)
Definition GetGlobalSinkState (desired_batch_size : idx_t) : BatchCopyToGlobalState :=
  mkGlobal 0 desired_batch_size [] [] false.

Definition GetLocalSinkState : BatchCopyToLocalState := mkLocal None 0 0.

Definition initial_world (desired_batch_size : idx_t) : World :=
  mkWorld (GetGlobalSinkState desired_batch_size) [].

(** The events a call added to the trace. *)
Definition events_since (w w' : World) : list Event :=
  skipn (length (trace w)) (trace w').

(** [keeps f m]: the call [m] leaves the component [f] of the global state as
    it found it, however it ends. *)
Definition keeps {X A : Type} (f : BatchCopyToGlobalState -> X) (m : M A) : Prop :=
  forall w, f (gstate (world_of (m w))) = f (gstate w).

(** [extends m]: the call [m] only adds events at the end of the trace. *)
Definition extends {A : Type} (m : M A) : Prop :=
  forall w, exists evs, trace (world_of (m w)) = trace w ++ evs.

(** The summed row count of the raw entries with index below [min_index]. *)
Fixpoint rows_below (min_index : idx_t) (m : StdMap.t ColumnDataCollection) : Z :=
  match m with
  | [] => 0
  | (k, c) :: rest =>
      (if k <? min_index then Count c else 0) + rows_below min_index rest
  end.

(** The summed size of a list of chunks. *)
Definition total_rows (chunks : list DataChunk) : Z :=
  fold_right (fun ch n => chunk_size ch + n) 0 chunks.

(** Every chunk of the collection is at most one vector wide, and the row
    count is in the range of [int64_t]. *)
Definition collection_in_range (vector_size : idx_t) (c : ColumnDataCollection) : bool :=
  (Count c <? 2 ^ 63) && forallb (fun ch => chunk_size ch <=? vector_size) (Chunks c).

Definition raw_in_range (vector_size : idx_t) (m : StdMap.t ColumnDataCollection) : bool :=
  forallb (fun e => collection_in_range vector_size (snd e)) m.

(** A row count that is within one vector's width of the target. *)
Definition within_tolerance (vector_size batch_size n : Z) : Prop :=
  Z.abs (n - batch_size) < vector_size.

(** The rows held by an accumulator that may be absent. *)
Definition accumulator_rows (current_collection : option ColumnDataCollection) : list Row :=
  match current_collection with
  | Some c => Rows c
  | None => []
  end.

(** The events of the final loop of [RepartitionBatches]. *)
Definition prepare_flush_events (result : list ColumnDataCollection) : list Event :=
  flat_map (fun c => [Prepare c; Flush (prepare_batch c)]) result.

(** *** Histories of a local and of the global state

    A local state is reached from [GetLocalSinkState] by [Sink] and
    [NextBatch] calls, the latter against whatever the global state is at
    that moment; [local_run l chunks] records the chunks it was given. *)
Inductive local_run (vector_size : idx_t) : BatchCopyToLocalState -> list DataChunk -> Prop :=
| local_start : local_run vector_size GetLocalSinkState []
| local_sink l chunks chunk :
    local_run vector_size l chunks ->
    local_run vector_size (Sink chunk l) (chunks ++ [chunk])
| local_next l chunks info w l' w' :
    local_run vector_size l chunks ->
    NextBatch vector_size info l w = Done l' w' ->
    local_run vector_size l' chunks.

(** The global state is reached from its initial value by [NextBatch] calls
    of any local state and by [Combine] calls; [global_run w ls] records the
    local states combined so far, last first. *)
Inductive global_run (vector_size : idx_t) : World -> list BatchCopyToLocalState -> Prop :=
| global_start desired_batch_size :
    global_run vector_size (initial_world desired_batch_size) []
| global_next w ls info l l' w' :
    global_run vector_size w ls ->
    NextBatch vector_size info l w = Done l' w' ->
    global_run vector_size w' ls
| global_combine w ls l w' :
    global_run vector_size w ls ->
    Combine l w = Done tt w' ->
    global_run vector_size w' (l :: ls).

(** *** Statements that are checked against the operator *)

(** "Every collection emitted by a repartition pass has its prepared form
    inserted into the prepared map, and is written only when the prepared
    map is drained later": the pass itself writes nothing, and what it
    prepared is in [batch_data] when it returns. *)
Definition repartition_output_enters_prepared_map (vector_size : idx_t) : Prop :=
  forall (min_index : idx_t) (final : bool) (w w' : World),
    RepartitionBatches vector_size min_index final w = Done tt w' ->
    flushed_collections (events_since w w') = [] /\
    forall c, In c (prepared_collections (events_since w w')) ->
              exists k, StdMap.find k (batch_data (gstate w')) = Some (Some (prepare_batch c)).

(** "An empty accumulator is never submitted": a batch transition of a local
    state whose collection has no rows leaves the registry and the writer
    alone. *)
Definition empty_accumulator_not_submitted (vector_size : idx_t) : Prop :=
  forall (info : PartitionInfo) (l : BatchCopyToLocalState) (c : ColumnDataCollection)
         (w : World),
    collection l = Some c -> Count c = 0 ->
    exists l', NextBatch vector_size info l w = Done l' w.

(** *** Example runs *)

(** One producer, target batch size 0: batches 0 and 1 with rows [1 2] and
    [3], each handed off at the next batch transition, then [Combine] and
    [Finalize]. *)
Definition two_batches_unsized : Outcome unit :=
  (l <- NextBatch 2048 (mkPartitionInfo 0 0) GetLocalSinkState ;;
   l <- NextBatch 2048 (mkPartitionInfo 1 1) (Sink [1; 2]%nat l) ;;
   l <- NextBatch 2048 (mkPartitionInfo 2 2) (Sink [3]%nat l) ;;
   Combine l ;;
   Finalize 2048) (initial_world 0).

(** A first flush attempt on the empty registry, then batch 0 is prepared and
    a second attempt is made with watermark 1. *)
Definition flush_twice : Outcome unit :=
  (FlushBatchData 1 ;;
   PrepareBatchData 0 (mkCollection [[7]%nat]) ;;
   FlushBatchData 1) (initial_world 0).

(** Target batch size 2; the raw map holds batch 0 with exactly two rows. *)
Definition one_exact_batch : World :=
  mkWorld (mkGlobal 0 2 [(0, mkCollection [[1; 2]%nat])] [] false) [].

(** Target batch size 2; one producer sinks two rows into batch 0 and moves
    on to batch 1. *)
Definition exact_batch_transition : Outcome BatchCopyToLocalState :=
  (l <- NextBatch 2048 (mkPartitionInfo 0 0) GetLocalSinkState ;;
   NextBatch 2048 (mkPartitionInfo 1 1) (Sink [1; 2]%nat l)) (initial_world 2).

(** Target batch size 5000; the raw map holds batch 0 with two rows. *)
Definition one_small_batch : World :=
  mkWorld (mkGlobal 0 5000 [(0, mkCollection [[1; 2]%nat])] [] false) [].

(** Target batch size 4, for a vector size of 2; batch 0 with two rows and
    batch 1 with three rows are below the watermark 2. *)
Definition two_raw_batches : World :=
  mkWorld (mkGlobal 0 4 [(0, mkCollection [[1; 2]%nat]);
                         (1, mkCollection [[3; 4]%nat; [5]%nat])] [] false) [].

(** A local state right after its first batch transition, target batch
    size 0. *)
Definition fresh_local_state : Outcome BatchCopyToLocalState :=
  NextBatch 2048 (mkPartitionInfo 0 0) GetLocalSinkState (initial_world 0).

(** Two producers, target batch size 0.  Producer [a] works on batch 0 and
    producer [b] on batch 1; [b] finishes first, while batch 0 is still in
    flight (watermark 0). *)
Definition two_producers : Outcome unit :=
  (a <- NextBatch 2048 (mkPartitionInfo 0 0) GetLocalSinkState ;;
   b <- NextBatch 2048 (mkPartitionInfo 1 0) GetLocalSinkState ;;
   b <- NextBatch 2048 (mkPartitionInfo 2 0) (Sink [3]%nat b) ;;
   a <- NextBatch 2048 (mkPartitionInfo 3 2) (Sink [1; 2]%nat a) ;;
   Combine b ;;
   Combine a ;;
   Finalize 2048) (initial_world 0).

(** *** Further notions used in the properties *)

(** The entries at the head of the prepared map that a flush with watermark
    [min_index] can write (below the watermark, and prepared), and what
    follows them. *)
Fixpoint ready_prefix (min_index : idx_t) (bd : StdMap.t (option PreparedBatchData))
  : list PreparedBatchData * StdMap.t (option PreparedBatchData) :=
  match bd with
  | (k, Some p) :: rest =>
      if k <? min_index
      then (p :: fst (ready_prefix min_index rest), snd (ready_prefix min_index rest))
      else ([], bd)
  | _ => ([], bd)
  end.

Definition Mutex_eqb (a b : Mutex) : bool :=
  match a, b with
  | m_lock, m_lock => true
  | m_flush_lock, m_flush_lock => true
  | _, _ => false
  end.

(** A thread that holds [held] (last taken first) may take [m] when it does
    not hold it already, and never takes the flush lock while it holds the
    registry lock. *)
Definition may_acquire (held : list Mutex) (m : Mutex) : bool :=
  negb (existsb (Mutex_eqb m) held)
  && negb (Mutex_eqb m m_flush_lock && existsb (Mutex_eqb m_lock) held).

(** Replays the events of one thread on the stack of mutexes it holds.
    [None]: a mutex was taken against [may_acquire], a mutex other than the
    last one taken was released, or [flush_batch] was called with no mutex
    held. *)
Fixpoint replay_locks (held : list Mutex) (evs : list Event) : option (list Mutex) :=
  match evs with
  | [] => Some held
  | Acquire m :: rest =>
      if may_acquire held m then replay_locks (m :: held) rest else None
  | Release m :: rest =>
      match held with
      | top :: below => if Mutex_eqb top m then replay_locks below rest else None
      | [] => None
      end
  | Prepare _ :: rest => replay_locks held rest
  | Flush _ :: rest =>
      match held with
      | [] => None
      | _ :: _ => replay_locks held rest
      end
  end.

(** [disciplined held m]: called by a thread that holds [held], [m] only
    adds events to the trace, these replay without fault, and the thread
    holds [held] again when [m] ends, normally or not. *)
Definition disciplined {A : Type} (held : list Mutex) (m : M A) : Prop :=
  forall w, exists evs,
    trace (world_of (m w)) = trace w ++ evs /\ replay_locks held evs = Some held.

(** The raw map is in use only with a target batch size, the prepared map
    only without one. *)
Definition mode_separated (g : BatchCopyToGlobalState) : Prop :=
  (batch_size g = 0 -> raw_batches g = []) /\
  (batch_size g <> 0 -> batch_data g = []).

(** All rows of a raw map, in map order. *)
Definition raw_rows (m : StdMap.t ColumnDataCollection) : list Row :=
  flat_map (fun e => Rows (snd e)) m.


Definition all_below (min_index : idx_t) (m : StdMap.t ColumnDataCollection) : bool :=
  forallb (fun e => fst e <? min_index) m.


(** * Properties *)

(** ** Machine integers *)

Lemma idx_cast_small (z : Z) : 0 <= z < 2 ^ 64 -> idx_cast z = z.
Proof. intros H. unfold idx_cast. apply Z.mod_small. exact H. Qed.

Lemma idx_cast_range (z : Z) : 0 <= idx_cast z < 2 ^ 64.
Proof. unfold idx_cast. apply Z.mod_pos_bound. lia. Qed.

Lemma idx_cast_le (z : Z) : 0 <= z -> idx_cast z <= z.
Proof. intros H. unfold idx_cast. apply Z.mod_le; lia. Qed.

Lemma idx_cast_add_l (a b : Z) : idx_cast (idx_cast a + b) = idx_cast (a + b).
Proof. unfold idx_cast. apply Zplus_mod_idemp_l. Qed.

Lemma idx_cast_add_r (a b : Z) : idx_cast (a + idx_cast b) = idx_cast (a + b).
Proof. unfold idx_cast. apply Zplus_mod_idemp_r. Qed.

Lemma int64_cast_small (z : Z) : - 2 ^ 63 <= z < 2 ^ 63 -> int64_cast z = z.
Proof.
  intros H. unfold int64_cast.
  rewrite Z.mod_small; lia.
Qed.

Lemma Count_nonneg (c : ColumnDataCollection) : 0 <= Count c.
Proof. unfold Count. lia. Qed.

Lemma chunk_size_nonneg (ch : DataChunk) : 0 <= chunk_size ch.
Proof. unfold chunk_size. lia. Qed.

Lemma Rows_Append (c : ColumnDataCollection) (ch : DataChunk) :
  Rows (Append c ch) = Rows c ++ ch.
Proof.
  unfold Rows, Append. simpl.
  rewrite concat_app. simpl. rewrite app_nil_r. reflexivity.
Qed.

Lemma Count_Append (c : ColumnDataCollection) (ch : DataChunk) :
  Count (Append c ch) = Count c + chunk_size ch.
Proof.
  unfold Count, chunk_size. rewrite Rows_Append, length_app. lia.
Qed.

Lemma Count_empty : Count empty_collection = 0.
Proof. reflexivity. Qed.

(** ** Traces *)

Lemma events_since_app (w : World) (g : BatchCopyToGlobalState) (evs : list Event) :
  events_since w (mkWorld g (trace w ++ evs)) = evs.
Proof.
  unfold events_since. simpl.
  induction (trace w) as [|e tr IH]; simpl; [reflexivity | exact IH].
Qed.

Lemma prepared_collections_app (a b : list Event) :
  prepared_collections (a ++ b) = prepared_collections a ++ prepared_collections b.
Proof. unfold prepared_collections. apply flat_map_app. Qed.

Lemma flushed_collections_app (a b : list Event) :
  flushed_collections (a ++ b) = flushed_collections a ++ flushed_collections b.
Proof. unfold flushed_collections. apply flat_map_app. Qed.

(** ** The flush loop *)

Section FlushLoop.
Variable min_index : idx_t.

(** A turn that stops: the flag stays set. *)
Lemma FlushBatchData_body_break (w : World) (w' : World) :
  FlushBatchData_body min_index w = Done Break w' ->
  active_flush (gstate w') = true /\
  batch_data (gstate w') = batch_data (gstate w) /\
  raw_batches (gstate w') = raw_batches (gstate w) /\
  flushed_collections (trace w') = flushed_collections (trace w).
Proof.
  unfold FlushBatchData_body, fetch_next_batch, lock_guard, bind, emit, modify, gets, ret.
  simpl.
  destruct (batch_data (gstate w)) as [|[k [p|]] rest] eqn:E; simpl;
    try destruct (k >=? min_index); simpl; intros H; inversion H; subst; clear H;
    simpl; rewrite E; repeat split; try reflexivity;
    repeat rewrite flushed_collections_app; simpl; repeat rewrite app_nil_r; reflexivity.
Qed.

(** A turn that goes on: the first entry left the map and was written. *)
Lemma FlushBatchData_body_continue (w : World) (w' : World) :
  FlushBatchData_body min_index w = Done Continue w' ->
  exists k p rest,
    batch_data (gstate w) = (k, Some p) :: rest /\ k < min_index /\
    batch_data (gstate w') = rest /\
    active_flush (gstate w') = false /\
    raw_batches (gstate w') = raw_batches (gstate w) /\
    flushed_collections (trace w') =
      flushed_collections (trace w) ++ [prepared_collection p].
Proof.
  unfold FlushBatchData_body, fetch_next_batch, lock_guard, bind, emit, modify, gets, ret.
  simpl.
  destruct (batch_data (gstate w)) as [|[k [p|]] rest] eqn:E; simpl;
    try (destruct (k >=? min_index) eqn:Ek); simpl; intros H; inversion H; subst; clear H.
  exists k, p, rest. simpl.
  repeat split; try reflexivity; try lia.
  repeat rewrite flushed_collections_app; simpl; repeat rewrite app_nil_r. reflexivity.
Qed.

Lemma FlushBatchData_body_no_throw (w : World) (e : Exception) (w' : World) :
  FlushBatchData_body min_index w <> Throw e w'.
Proof.
  unfold FlushBatchData_body, fetch_next_batch, lock_guard, bind, emit, modify, gets, ret.
  simpl.
  destruct (batch_data (gstate w)) as [|[k [p|]] rest]; simpl;
    try destruct (k >=? min_index); simpl; discriminate.
Qed.

(** The bound on the turns is never used up, and the loop leaves the flag
    set whenever it was entered. *)
Lemma FlushBatchData_while_enough (turns : nat) (w : World) :
  (length (batch_data (gstate w)) < turns)%nat ->
  active_flush (gstate w) = false ->
  exists w', FlushBatchData_while turns min_index w = Some (Done tt w') /\
             active_flush (gstate w') = true /\
             raw_batches (gstate w') = raw_batches (gstate w).
Proof.
  revert w. induction turns as [|n IH]; intros w Hlen Hflag; [lia|].
  simpl. rewrite Hflag.
  destruct (FlushBatchData_body min_index w) as [[|] w1|e w1] eqn:Hbody.
  - destruct (FlushBatchData_body_continue _ _ Hbody)
      as (k & p & rest & Hbd & _ & Hbd1 & Hflag1 & Hraw1 & _).
    destruct (IH w1) as (w' & Hrun & Hflag' & Hraw').
    + rewrite Hbd1. rewrite Hbd in Hlen. simpl in Hlen. lia.
    + exact Hflag1.
    + exists w'. repeat split; try assumption. congruence.
  - destruct (FlushBatchData_body_break _ _ Hbody) as (Hflag1 & _ & Hraw1 & _).
    exists w1. repeat split; assumption.
  - exfalso. exact (FlushBatchData_body_no_throw _ _ _ Hbody).
Qed.

(** With the flag set, [FlushBatchData] does nothing at all. *)
Lemma FlushBatchData_flag_set (w : World) :
  active_flush (gstate w) = true -> FlushBatchData min_index w = Done tt w.
Proof.
  intros H. unfold FlushBatchData. simpl. rewrite H. reflexivity.
Qed.

(** With the flag clear, [FlushBatchData] returns with the flag set. *)
Lemma FlushBatchData_sets_flag (w : World) :
  active_flush (gstate w) = false ->
  exists w', FlushBatchData min_index w = Done tt w' /\
             active_flush (gstate w') = true /\
             raw_batches (gstate w') = raw_batches (gstate w).
Proof.
  intros H.
  destruct (FlushBatchData_while_enough (S (length (batch_data (gstate w)))) w)
    as (w' & Hrun & Hflag & Hraw); [lia | exact H |].
  exists w'. unfold FlushBatchData. rewrite Hrun. repeat split; assumption.
Qed.

End FlushLoop.

(** ** Frame lemmas *)

Section Frame.
Context {X : Type} (f : BatchCopyToGlobalState -> X).

Lemma keeps_ret {A} (a : A) : keeps f (ret a).
Proof. intros w. reflexivity. Qed.

Lemma keeps_throw {A} (e : Exception) : keeps f (@throw A e).
Proof. intros w. reflexivity. Qed.

Lemma keeps_gets {A} (h : BatchCopyToGlobalState -> A) : keeps f (gets h).
Proof. intros w. reflexivity. Qed.

Lemma keeps_emit (e : Event) : keeps f (emit e).
Proof. intros w. reflexivity. Qed.

Lemma keeps_modify (h : BatchCopyToGlobalState -> BatchCopyToGlobalState) :
  (forall g, f (h g) = f g) -> keeps f (modify h).
Proof. intros H w. simpl. apply H. Qed.

Lemma keeps_bind {A B} (m : M A) (k : A -> M B) :
  keeps f m -> (forall a, keeps f (k a)) -> keeps f (bind m k).
Proof.
  intros Hm Hk w. unfold bind.
  specialize (Hm w).
  destruct (m w) as [a w1|e w1]; simpl in *.
  - rewrite (Hk a w1). exact Hm.
  - exact Hm.
Qed.

Lemma keeps_lock_guard {A} (mu : Mutex) (body : M A) :
  keeps f body -> keeps f (lock_guard mu body).
Proof.
  intros Hb w. unfold lock_guard.
  pose proof (keeps_bind (emit (Acquire mu)) (fun _ => body) (keeps_emit _) (fun _ => Hb) w) as H.
  destruct (bind (emit (Acquire mu)) (fun _ => body) w) as [a w1|e w1]; simpl in *; exact H.
Qed.

Lemma keeps_prepare_and_flush (result : list ColumnDataCollection) :
  keeps f (prepare_and_flush result).
Proof.
  induction result as [|c rest IH]; simpl.
  - apply keeps_ret.
  - apply keeps_bind; [apply keeps_emit|]. intros _.
    apply keeps_bind; [apply keeps_emit|]. intros _. exact IH.
Qed.

End Frame.

Ltac frame_step :=
  first
    [ apply keeps_ret | apply keeps_throw | apply keeps_gets | apply keeps_emit
    | apply keeps_prepare_and_flush
    | apply keeps_lock_guard
    | apply keeps_modify; intros; reflexivity
    | apply keeps_bind; [|intros ?] ].

Ltac frame :=
  repeat first
    [ frame_step
    | match goal with
      | |- keeps _ (match ?x with _ => _ end) => destruct x
      | |- keeps _ (if ?x then _ else _) => destruct x
      | |- keeps _ (let '(_, _) := ?x in _) => destruct x
      end ].

Section FrameOperator.
Variable STANDARD_VECTOR_SIZE : idx_t.

Lemma AddBatchData_keeps_rows_copied k c : keeps rows_copied (AddBatchData k c).
Proof. unfold AddBatchData. frame. Qed.

Lemma AddBatchData_keeps_batch_data k c : keeps batch_data (AddBatchData k c).
Proof. unfold AddBatchData. frame. Qed.

Lemma PrepareBatchData_keeps_rows_copied k c : keeps rows_copied (PrepareBatchData k c).
Proof. unfold PrepareBatchData. frame. Qed.

Lemma PrepareBatchData_keeps_raw_batches k c : keeps raw_batches (PrepareBatchData k c).
Proof. unfold PrepareBatchData. frame. Qed.

Lemma RepartitionBatches_keeps_rows_copied min_index final :
  keeps rows_copied (RepartitionBatches STANDARD_VECTOR_SIZE min_index final).
Proof. unfold RepartitionBatches. frame. Qed.

Lemma RepartitionBatches_keeps_batch_data min_index final :
  keeps batch_data (RepartitionBatches STANDARD_VECTOR_SIZE min_index final).
Proof. unfold RepartitionBatches. frame. Qed.

Lemma RepartitionBatches_keeps_batch_size min_index final :
  keeps batch_size (RepartitionBatches STANDARD_VECTOR_SIZE min_index final).
Proof. unfold RepartitionBatches. frame. Qed.

Lemma RepartitionBatches_keeps_active_flush min_index final :
  keeps active_flush (RepartitionBatches STANDARD_VECTOR_SIZE min_index final).
Proof. unfold RepartitionBatches. frame. Qed.

Lemma FlushBatchData_body_keeps_rows_copied min_index :
  keeps rows_copied (FlushBatchData_body min_index).
Proof. unfold FlushBatchData_body, fetch_next_batch. frame. Qed.

Lemma FlushBatchData_keeps_rows_copied min_index :
  keeps rows_copied (FlushBatchData min_index).
Proof.
  assert (H : forall n w o, FlushBatchData_while n min_index w = Some o ->
                            rows_copied (gstate (world_of o)) = rows_copied (gstate w)).
  { induction n as [|n IH]; intros w o; simpl;
      destruct (active_flush (gstate w)); try discriminate;
      try (intros E; inversion E; reflexivity).
    pose proof (FlushBatchData_body_keeps_rows_copied min_index w) as Hb.
    destruct (FlushBatchData_body min_index w) as [[|] w1|e w1]; simpl in Hb; intros E.
    - rewrite (IH _ _ E). exact Hb.
    - inversion E. exact Hb.
    - inversion E. exact Hb. }
  intros w. unfold FlushBatchData.
  destruct (FlushBatchData_while _ min_index w) as [o|] eqn:E.
  - exact (H _ _ _ E).
  - reflexivity.
Qed.

Lemma NextBatch_keeps_rows_copied info l :
  keeps rows_copied (NextBatch STANDARD_VECTOR_SIZE info l).
Proof.
  unfold NextBatch.
  apply keeps_bind; [|intros ?; apply keeps_ret].
  destruct (collection l); [|apply keeps_ret].
  apply keeps_bind; [apply keeps_gets|]. intros b.
  apply keeps_bind; [|intros ?; apply FlushBatchData_keeps_rows_copied].
  destruct (negb (b =? 0)).
  - apply keeps_bind; [apply AddBatchData_keeps_rows_copied|].
    intros ?. apply RepartitionBatches_keeps_rows_copied.
  - apply PrepareBatchData_keeps_rows_copied.
Qed.

Lemma Finalize_keeps_rows_copied : keeps rows_copied (Finalize STANDARD_VECTOR_SIZE).
Proof.
  unfold Finalize.
  apply keeps_bind; [apply keeps_gets|]. intros raw.
  apply keeps_bind; [|intros ?; apply FlushBatchData_keeps_rows_copied].
  destruct raw; [apply keeps_ret | apply RepartitionBatches_keeps_rows_copied].
Qed.

End FrameOperator.

(** ** Duplicate submissions *)

Lemma set_raw_batches_same (g : BatchCopyToGlobalState) :
  set_raw_batches (raw_batches g) g = g.
Proof. destruct g. reflexivity. Qed.

Lemma set_batch_data_same (g : BatchCopyToGlobalState) :
  set_batch_data (batch_data g) g = g.
Proof. destruct g. reflexivity. Qed.

(** C9. A batch index that is already in the raw map makes [AddBatchData]
    throw the duplicate-index exception, and one that is already in the
    prepared map makes [PrepareBatchData] throw it; in both cases the global
    state, hence the entry stored under that index, is as before. *)
Theorem duplicate_batch_index_is_fatal
        (w : World) (k : idx_t) (c : ColumnDataCollection) :
  (forall c0, StdMap.find k (raw_batches (gstate w)) = Some c0 ->
     exists w', AddBatchData k c w = Throw (DuplicateBatchIndex k) w' /\
                gstate w' = gstate w /\
                StdMap.find k (raw_batches (gstate w')) = Some c0) /\
  (forall p0, StdMap.find k (batch_data (gstate w)) = Some p0 ->
     exists w', PrepareBatchData k c w = Throw (DuplicateBatchIndex k) w' /\
                gstate w' = gstate w /\
                StdMap.find k (batch_data (gstate w')) = Some p0).
Proof.
  split.
  - intros c0 Hfind.
    unfold AddBatchData, lock_guard, bind, emit, gets, modify, throw, ret, StdMap.insert.
    simpl. rewrite Hfind. simpl.
    eexists. split; [reflexivity|]. simpl.
    rewrite set_raw_batches_same. split; [reflexivity | exact Hfind].
  - intros p0 Hfind.
    unfold PrepareBatchData, lock_guard, bind, emit, gets, modify, throw, ret, StdMap.insert.
    simpl. rewrite Hfind. simpl.
    eexists. split; [reflexivity|]. simpl.
    rewrite set_batch_data_same. split; [reflexivity | exact Hfind].
Qed.

Lemma duplicate_batch_index_is_fatal_witness :
  let w := mkWorld (mkGlobal 0 0 [(3, mkCollection [[1]%nat])]
                             [(5, Some (prepare_batch (mkCollection [[2]%nat])))] false) [] in
  (exists w', AddBatchData 3 (mkCollection [[9]%nat]) w = Throw (DuplicateBatchIndex 3) w' /\
              gstate w' = gstate w /\
              StdMap.find 3 (raw_batches (gstate w')) = Some (mkCollection [[1]%nat])) /\
  (exists w', PrepareBatchData 5 (mkCollection [[9]%nat]) w = Throw (DuplicateBatchIndex 5) w' /\
              gstate w' = gstate w /\
              StdMap.find 5 (batch_data (gstate w'))
              = Some (Some (prepare_batch (mkCollection [[2]%nat])))).
Proof.
  intros w. split.
  - apply (proj1 (duplicate_batch_index_is_fatal w 3 (mkCollection [[9]%nat]))).
    reflexivity.
  - apply (proj2 (duplicate_batch_index_is_fatal w 5 (mkCollection [[9]%nat]))).
    reflexivity.
Defined.

(** ** The starvation guard *)

Lemma rows_below_nonneg (min_index : idx_t) (m : StdMap.t ColumnDataCollection) :
  0 <= rows_below min_index m.
Proof.
  induction m as [|[k c] rest IH]; simpl; [lia|].
  pose proof (Count_nonneg c). destruct (k <? min_index); lia.
Qed.

(** The scan counts no more than the rows below the watermark. *)
Lemma candidate_rows_scan_le (min_index : idx_t) (m : StdMap.t ColumnDataCollection) :
  forall acc, 0 <= acc ->
    candidate_rows_scan m min_index acc <= acc + rows_below min_index m.
Proof.
  induction m as [|[k c] rest IH]; intros acc Hacc; simpl; [lia|].
  pose proof (Count_nonneg c) as Hc.
  pose proof (rows_below_nonneg min_index rest) as Hr.
  destruct (k >=? min_index) eqn:E.
  - destruct (k <? min_index); lia.
  - assert ((k <? min_index) = true) as -> by lia.
    assert (Hsum : 0 <= acc + Count c) by lia.
    pose proof (idx_cast_le (acc + Count c) Hsum) as Hle.
    pose proof (idx_cast_range (acc + Count c)) as Hrg.
    specialize (IH (idx_cast (acc + Count c)) (proj1 Hrg)). lia.
Qed.

Section Starvation.
Variable STANDARD_VECTOR_SIZE : idx_t.

(** C7. A pass that is not final and finds fewer rows below the watermark
    than the target batch size returns normally with the global state (the
    raw map in particular) unchanged; it only took and released the registry
    lock, so nothing was prepared or flushed. *)
Theorem starved_repartition_consumes_nothing (w : World) (min_index : idx_t) :
  rows_below min_index (raw_batches (gstate w)) < batch_size (gstate w) ->
  exists w',
    RepartitionBatches STANDARD_VECTOR_SIZE min_index false w = Done tt w' /\
    gstate w' = gstate w /\
    events_since w w' = [Acquire m_lock; Release m_lock] /\
    prepared_collections (events_since w w') = [] /\
    flushed_collections (events_since w w') = [].
Proof.
  intros Hlt.
  assert (H0 : 0 <= 0) by lia.
  pose proof (candidate_rows_scan_le min_index (raw_batches (gstate w)) 0 H0) as Hscan.
  assert ((candidate_rows_scan (raw_batches (gstate w)) min_index 0 <? batch_size (gstate w))
          = true) as Hguard by lia.
  exists (mkWorld (gstate w) (trace w ++ [Acquire m_lock; Release m_lock])).
  split.
  - unfold RepartitionBatches, lock_guard, bind, emit, gets, ret. simpl.
    remember (candidate_rows_scan (raw_batches (gstate w)) min_index 0) as scan eqn:Hs.
    clear Hs Hscan.
    destruct (raw_batches (gstate w)); simpl; [|rewrite Hguard; simpl];
      rewrite <- app_assoc; reflexivity.
  - simpl. rewrite events_since_app. repeat split.
Qed.

End Starvation.

Lemma starved_repartition_consumes_nothing_witness :
  let w := mkWorld (mkGlobal 0 1000 [(0, mkCollection [[1; 2; 3]%nat]);
                                     (4, mkCollection [[4; 5]%nat])] [] false) [] in
  exists w',
    RepartitionBatches 2048 2 false w = Done tt w' /\
    gstate w' = gstate w /\
    events_since w w' = [Acquire m_lock; Release m_lock] /\
    prepared_collections (events_since w w') = [] /\
    flushed_collections (events_since w w') = [].
Proof.
  intros w. apply (starved_repartition_consumes_nothing 2048 w 2).
  vm_compute. reflexivity.
Defined.

(** ** The flush-in-progress flag *)

(** C4. On the initial registry a first [FlushBatchData] returns with
    [active_flush] set.  Batch 0 is then prepared; the second
    [FlushBatchData], with watermark 1, returns without writing it: the
    batch stays in the prepared map and nothing has reached [flush_batch]. *)
Theorem stale_active_flush_skips_ready_batch :
  (exists w1, FlushBatchData 1 (initial_world 0) = Done tt w1 /\
              active_flush (gstate w1) = true) /\
  (exists w, flush_twice = Done tt w /\
             active_flush (gstate w) = true /\
             batch_data (gstate w) = [(0, Some (prepare_batch (mkCollection [[7]%nat])))] /\
             flushed_collections (trace w) = []).
Proof.
  split; eexists; vm_compute; repeat split.
Qed.

(** ** Runs that lose rows *)

(** C1. One producer hands off batch 0 (rows 1, 2) and batch 1 (row 3) at
    consecutive batch transitions with target batch size 0, and [Finalize]
    returns normally; only the rows of batch 0 have been passed to
    [flush_batch]. *)
Theorem two_batches_unsized_flushes_a_prefix :
  exists w, two_batches_unsized = Done tt w /\
            flushed_rows (trace w) = [1; 2]%nat /\
            flushed_rows (trace w) <> [1; 2; 3]%nat.
Proof.
  eexists. split; [vm_compute; reflexivity|].
  split; [reflexivity | discriminate].
Qed.

(** C2. In the same run [Finalize] returns normally while the prepared map
    still holds batch 1, whose row 3 was accepted by [Sink] and counted in
    [rows_copied] but never passed to [flush_batch]. *)
Theorem finalize_leaves_prepared_batch :
  exists w, two_batches_unsized = Done tt w /\
            raw_batches (gstate w) = [] /\
            batch_data (gstate w) = [(1, Some (prepare_batch (mkCollection [[3]%nat])))] /\
            GetData (gstate w) = 3 /\
            ~ In 3%nat (flushed_rows (trace w)).
Proof.
  eexists. split; [vm_compute; reflexivity|].
  repeat split. simpl. intros [H|[H|[]]]; discriminate.
Qed.

(** C5. With target batch size 2, a pass over a raw map that holds one batch
    of exactly two rows takes the batch out of the map and then throws on the
    empty [current_collection]: no collection is emitted, the two rows are
    in neither the trace nor the raw map.  [Finalize] on that registry ends
    the same way, and so does the batch transition that hands the batch off
    with the watermark past it. *)
Theorem exact_batch_is_dropped :
  RepartitionBatches 2048 1 true one_exact_batch
  = Throw NullUniquePtr (mkWorld (mkGlobal 0 2 [] [] false) [Acquire m_lock; Release m_lock]) /\
  Finalize 2048 one_exact_batch
  = Throw NullUniquePtr (mkWorld (mkGlobal 0 2 [] [] false) [Acquire m_lock; Release m_lock]) /\
  exact_batch_transition
  = Throw NullUniquePtr (mkWorld (mkGlobal 0 2 [] [] false)
                                 [Acquire m_lock; Release m_lock;
                                  Acquire m_lock; Release m_lock]).
Proof.
  repeat split; vm_compute; reflexivity.
Qed.

(** ** The repartition pass, case by case *)

Lemma prepare_and_flush_run (result : list ColumnDataCollection) (w : World) :
  prepare_and_flush result w
  = Done tt (mkWorld (gstate w) (trace w ++ prepare_flush_events result)).
Proof.
  revert w. induction result as [|c rest IH]; intros w.
  - simpl. unfold ret. rewrite app_nil_r. destruct w; reflexivity.
  - simpl. unfold bind, emit. rewrite IH. simpl.
    repeat rewrite <- app_assoc. reflexivity.
Qed.

Lemma prepared_of_prepare_flush_events (result : list ColumnDataCollection) :
  prepared_collections (prepare_flush_events result) = result.
Proof.
  induction result as [|c rest IH]; simpl; [reflexivity|]. f_equal. exact IH.
Qed.

Lemma flushed_of_prepare_flush_events (result : list ColumnDataCollection) :
  flushed_collections (prepare_flush_events result) = result.
Proof.
  induction result as [|c rest IH]; simpl; [reflexivity|]. f_equal. exact IH.
Qed.

Section RepartitionCases.
Variable STANDARD_VECTOR_SIZE : idx_t.

(** The outcome of a pass, written out: the registry lock is taken first and
    released last, and the events in between are those of the final loop. *)
Lemma RepartitionBatches_unfold (min_index : idx_t) (final : bool) (w : World) :
  RepartitionBatches STANDARD_VECTOR_SIZE min_index final w =
  let g := gstate w in
  let ends (g' : BatchCopyToGlobalState) (result : list ColumnDataCollection) :=
    mkWorld g' (trace w ++ Acquire m_lock :: prepare_flush_events result ++ [Release m_lock]) in
  match raw_batches g with
  | [] => Done tt (ends g [])
  | _ :: _ =>
      if negb final && (candidate_rows_scan (raw_batches g) min_index 0 <? batch_size g)
      then Done tt (ends g [])
      else
        let '(max_batch_index, collections, remaining) :=
          gather (raw_batches g) min_index None [] in
        let '(current_collection, result) :=
          repartition STANDARD_VECTOR_SIZE (batch_size g) collections None [] in
        match current_collection with
        | None => Throw NullUniquePtr (ends (set_raw_batches remaining g) [])
        | Some cur =>
            if Count cur >? 0 then
              if final || CorrectSizeForBatch STANDARD_VECTOR_SIZE (Count cur) (batch_size g)
              then Done tt (ends (set_raw_batches remaining g) (result ++ [cur]))
              else match max_batch_index with
                   | Some k =>
                       Done tt (ends (set_raw_batches (StdMap.assign k cur remaining) g) result)
                   | None => Throw IndeterminateValue (ends (set_raw_batches remaining g) [])
                   end
            else Done tt (ends (set_raw_batches remaining g) result)
        end
  end.
Proof.
  unfold RepartitionBatches, lock_guard, bind, emit, gets, ret, modify, throw. simpl.
  remember (candidate_rows_scan (raw_batches (gstate w)) min_index 0) as scan eqn:Hs.
  remember (gather (raw_batches (gstate w)) min_index None []) as gathered eqn:Hg.
  clear Hs Hg.
  destruct (raw_batches (gstate w)) as [|e rest]; simpl.
  - rewrite <- app_assoc. reflexivity.
  - destruct (negb final && (scan <? batch_size (gstate w))); simpl.
    + rewrite <- app_assoc. reflexivity.
    + destruct gathered as [[max_batch_index collections] remaining]. simpl.
      destruct (repartition STANDARD_VECTOR_SIZE (batch_size (gstate w)) collections None [])
        as [[cur|] result]; simpl.
      * destruct (Count cur >? 0); simpl.
        -- destruct (final || CorrectSizeForBatch STANDARD_VECTOR_SIZE (Count cur)
                                                  (batch_size (gstate w))); simpl.
           ++ rewrite prepare_and_flush_run. simpl.
              repeat rewrite <- app_assoc. reflexivity.
           ++ destruct max_batch_index as [k|]; simpl.
              ** rewrite prepare_and_flush_run. simpl.
                 repeat rewrite <- app_assoc. reflexivity.
              ** repeat rewrite <- app_assoc. reflexivity.
        -- rewrite prepare_and_flush_run. simpl.
           repeat rewrite <- app_assoc. reflexivity.
      * repeat rewrite <- app_assoc. reflexivity.
Qed.

End RepartitionCases.

(** ** Traces only grow *)

Lemma extends_ret {A} (a : A) : extends (ret a).
Proof. intros w. exists []. simpl. rewrite app_nil_r. reflexivity. Qed.

Lemma extends_throw {A} (e : Exception) : extends (@throw A e).
Proof. intros w. exists []. simpl. rewrite app_nil_r. reflexivity. Qed.

Lemma extends_gets {A} (h : BatchCopyToGlobalState -> A) : extends (gets h).
Proof. intros w. exists []. simpl. rewrite app_nil_r. reflexivity. Qed.

Lemma extends_modify (h : BatchCopyToGlobalState -> BatchCopyToGlobalState) :
  extends (modify h).
Proof. intros w. exists []. simpl. rewrite app_nil_r. reflexivity. Qed.

Lemma extends_emit (e : Event) : extends (emit e).
Proof. intros w. exists [e]. reflexivity. Qed.

Lemma extends_bind {A B} (m : M A) (k : A -> M B) :
  extends m -> (forall a, extends (k a)) -> extends (bind m k).
Proof.
  intros Hm Hk w. unfold bind.
  destruct (Hm w) as [evs Hevs].
  destruct (m w) as [a w1|e w1]; simpl in *.
  - destruct (Hk a w1) as [evs' Hevs']. exists (evs ++ evs').
    rewrite Hevs', Hevs, app_assoc. reflexivity.
  - exists evs. exact Hevs.
Qed.

Lemma extends_lock_guard {A} (mu : Mutex) (body : M A) :
  extends body -> extends (lock_guard mu body).
Proof.
  intros Hb w. unfold lock_guard.
  destruct (extends_bind (emit (Acquire mu)) (fun _ => body) (extends_emit _) (fun _ => Hb) w)
    as [evs Hevs].
  destruct (bind (emit (Acquire mu)) (fun _ => body) w) as [a w1|e w1]; simpl in *;
    exists (evs ++ [Release mu]); rewrite Hevs, app_assoc; reflexivity.
Qed.

Ltac trace_step :=
  first
    [ apply extends_ret | apply extends_throw | apply extends_gets | apply extends_emit
    | apply extends_modify
    | apply extends_lock_guard
    | apply extends_bind; [|intros ?] ].

Ltac grows :=
  repeat first
    [ trace_step
    | match goal with
      | |- extends (match ?x with _ => _ end) => destruct x
      | |- extends (if ?x then _ else _) => destruct x
      end ].

Lemma FlushBatchData_extends (min_index : idx_t) : extends (FlushBatchData min_index).
Proof.
  assert (Hbody : extends (FlushBatchData_body min_index)).
  { unfold FlushBatchData_body, fetch_next_batch. grows. }
  assert (H : forall n w o, FlushBatchData_while n min_index w = Some o ->
                            exists evs, trace (world_of o) = trace w ++ evs).
  { induction n as [|n IH]; intros w o; simpl;
      destruct (active_flush (gstate w)); try discriminate;
      try (intros E; inversion E; exists []; simpl; rewrite app_nil_r; reflexivity).
    destruct (Hbody w) as [evs Hevs].
    destruct (FlushBatchData_body min_index w) as [[|] w1|e w1]; simpl in Hevs; intros E.
    - destruct (IH _ _ E) as [evs' Hevs']. exists (evs ++ evs').
      rewrite Hevs', Hevs, app_assoc. reflexivity.
    - inversion E. exists evs. exact Hevs.
    - inversion E. exists evs. exact Hevs. }
  intros w. unfold FlushBatchData.
  destruct (FlushBatchData_while _ min_index w) as [o|] eqn:E.
  - exact (H _ _ _ E).
  - exists []. simpl. rewrite app_nil_r. reflexivity.
Qed.

(** ** What a repartition pass does with its output *)

(** C3. With target batch size 5000, the final pass over a raw map that holds
    batch 0 with two rows emits that collection.  The pass itself calls
    [prepare_batch] and then [flush_batch] on it, between taking and
    releasing the registry lock and without the flush lock; the prepared map
    is empty when the pass returns, so the data was not submitted to it and
    is not written by a later drain.  [Finalize] on the same state ends the
    same way: the only write is the one inside the pass, and the flush that
    follows finds the prepared map empty. *)
Theorem repartition_output_bypasses_prepared_map :
  RepartitionBatches 2048 (idx_cast INT64_MAX) true one_small_batch
  = Done tt (mkWorld (mkGlobal 0 5000 [] [] false)
                     [Acquire m_lock;
                      Prepare (mkCollection [[1; 2]%nat]);
                      Flush (prepare_batch (mkCollection [[1; 2]%nat]));
                      Release m_lock]) /\
  ~ repartition_output_enters_prepared_map 2048 /\
  Finalize 2048 one_small_batch
  = Done tt (mkWorld (mkGlobal 0 5000 [] [] true)
                     [Acquire m_lock;
                      Prepare (mkCollection [[1; 2]%nat]);
                      Flush (prepare_batch (mkCollection [[1; 2]%nat]));
                      Release m_lock;
                      Acquire m_flush_lock; Acquire m_lock; Release m_lock;
                      Release m_flush_lock]).
Proof.
  assert (E : RepartitionBatches 2048 (idx_cast INT64_MAX) true one_small_batch
              = Done tt (mkWorld (mkGlobal 0 5000 [] [] false)
                     [Acquire m_lock;
                      Prepare (mkCollection [[1; 2]%nat]);
                      Flush (prepare_batch (mkCollection [[1; 2]%nat]));
                      Release m_lock])) by (vm_compute; reflexivity).
  split; [exact E|]. split.
  - intros H. destruct (H _ true _ _ E) as [Hflushed _].
    vm_compute in Hflushed. discriminate.
  - vm_compute. reflexivity.
Qed.

(** ** Batch transitions *)

Section Transition.
Variable STANDARD_VECTOR_SIZE : idx_t.

(** The local state after a batch transition. *)
Lemma NextBatch_local_state info l w l' w' :
  NextBatch STANDARD_VECTOR_SIZE info l w = Done l' w' ->
  l' = mkLocal (Some empty_collection) (local_rows_copied l) (next_batch_index info).
Proof.
  unfold NextBatch. unfold bind at 1. unfold ret at 1.
  match goal with
  | |- match ?m w with _ => _ end = _ -> _ =>
      destruct (m w) as [a w1|e w1]; intros H; inversion H; reflexivity
  end.
Qed.

(** C10 (amended). A batch transition hands the local collection to the
    registry exactly when the local state owns one, whatever its row count:
    - a local state without a collection (its first transition) leaves the
      world untouched;
    - with target batch size 0 the collection is passed to [prepare_batch]
      as the first event of the call;
    - with a target batch size the collection is put in the raw map under
      the local batch index (when that index is free), and the repartition
      pass and the flush run on the map that contains it. *)
Theorem NextBatch_hands_off_any_collection
        (info : PartitionInfo) (l : BatchCopyToLocalState) (w : World) :
  let l' := mkLocal (Some empty_collection) (local_rows_copied l) (next_batch_index info) in
  (collection l = None ->
     NextBatch STANDARD_VECTOR_SIZE info l w = Done l' w) /\
  (forall c, collection l = Some c -> batch_size (gstate w) = 0 ->
     exists rest,
       trace (world_of (NextBatch STANDARD_VECTOR_SIZE info l w))
       = trace w ++ Prepare c :: rest) /\
  (forall c, collection l = Some c -> batch_size (gstate w) <> 0 ->
     StdMap.find (batch_index l) (raw_batches (gstate w)) = None ->
     NextBatch STANDARD_VECTOR_SIZE info l w
     = (RepartitionBatches STANDARD_VECTOR_SIZE (min_batch_index info) false ;;
        FlushBatchData (min_batch_index info) ;;
        ret l')
         (mkWorld (set_raw_batches
                     (StdMap.place (batch_index l) c (raw_batches (gstate w))) (gstate w))
                  (trace w ++ [Acquire m_lock; Release m_lock]))).
Proof.
  intros l'. split; [|split].
  - intros Hc. unfold NextBatch. rewrite Hc. reflexivity.
  - intros c Hc Hb.
    set (rest_of_call :=
           (lock_guard m_lock
              (bd <- gets batch_data ;;
               let entry := StdMap.insert (batch_index l) (Some (prepare_batch c)) bd in
               modify (set_batch_data (fst entry)) ;;
               if negb (snd entry) then throw (DuplicateBatchIndex (batch_index l))
               else ret tt) ;;
            FlushBatchData (min_batch_index info) ;;
            ret l')).
    assert (Hrest : extends rest_of_call).
    { unfold rest_of_call. apply extends_bind; [grows|]. intros _.
      apply extends_bind; [apply FlushBatchData_extends|]. intros _. apply extends_ret. }
    assert (E : NextBatch STANDARD_VECTOR_SIZE info l w
                = rest_of_call (mkWorld (gstate w) (trace w ++ [Prepare c]))).
    { unfold NextBatch, rest_of_call. rewrite Hc.
      unfold bind at 1 2 3. unfold gets at 1. cbv beta iota. rewrite Hb.
      change (negb (0 =? 0)) with false. cbv iota.
      unfold PrepareBatchData. unfold bind at 1. unfold emit at 1. cbv beta iota.
      unfold bind.
      destruct (lock_guard m_lock _ _) as [[] w1|e w1]; [|reflexivity].
      destruct (FlushBatchData (min_batch_index info) w1) as [[] w2|e w2]; reflexivity. }
    rewrite E.
    destruct (Hrest (mkWorld (gstate w) (trace w ++ [Prepare c]))) as [evs Hevs].
    exists evs. rewrite Hevs. simpl. rewrite <- app_assoc. reflexivity.
  - intros c Hc Hb Hfree.
    assert (Hnz : negb (batch_size (gstate w) =? 0) = true).
    { destruct (batch_size (gstate w) =? 0) eqn:E; [|reflexivity]. lia. }
    unfold NextBatch. rewrite Hc.
    unfold bind at 1 2 3. unfold gets at 1. cbv beta iota. rewrite Hnz. cbv iota.
    unfold AddBatchData, StdMap.insert.
    unfold bind at 1. unfold lock_guard at 1.
    unfold bind at 1. unfold emit at 1. cbv beta iota.
    unfold bind at 1. unfold gets at 1. cbv beta iota. simpl gstate.
    rewrite Hfree. cbv beta iota zeta. simpl fst. simpl snd. simpl negb. cbv iota.
    unfold bind at 1. unfold modify at 1. cbv beta iota. unfold ret at 1.
    cbv beta iota. simpl gstate. simpl trace.
    rewrite <- app_assoc. simpl app.
    unfold bind.
    destruct (RepartitionBatches _ _ _ _) as [[] w1|e w1]; [|reflexivity].
    destruct (FlushBatchData (min_batch_index info) w1) as [[] w2|e w2]; reflexivity.
Qed.

End Transition.

Lemma NextBatch_hands_off_any_collection_witness :
  let w := mkWorld (mkGlobal 0 1000 [(3, mkCollection [[1]%nat])] [] false) [] in
  let l := mkLocal (Some empty_collection) 0 5 in
  let l' := mkLocal (Some empty_collection) 0 6 in
  NextBatch 2048 (mkPartitionInfo 6 6) (mkLocal None 0 0) w = Done l' w /\
  (exists rest,
     trace (world_of (NextBatch 2048 (mkPartitionInfo 6 6) l (initial_world 0)))
     = trace (initial_world 0) ++ Prepare empty_collection :: rest) /\
  NextBatch 2048 (mkPartitionInfo 6 6) l w
  = (bind (RepartitionBatches 2048 6 false)
          (fun _ => bind (FlushBatchData 6) (fun _ => ret l')))
      (mkWorld (set_raw_batches (StdMap.place 5 empty_collection (raw_batches (gstate w)))
                                (gstate w))
               (trace w ++ [Acquire m_lock; Release m_lock])).
Proof.
  intros w l l'. split; [|split].
  - apply (proj1 (NextBatch_hands_off_any_collection 2048 (mkPartitionInfo 6 6)
                    (mkLocal None 0 0) w)). reflexivity.
  - apply (proj1 (proj2 (NextBatch_hands_off_any_collection 2048 (mkPartitionInfo 6 6)
                           l (initial_world 0))) empty_collection); reflexivity.
  - apply (proj2 (proj2 (NextBatch_hands_off_any_collection 2048 (mkPartitionInfo 6 6)
                           l w)) empty_collection); [reflexivity | discriminate | reflexivity].
Defined.

(** C10, as stated, fails.  A local state that has just gone through its
    first batch transition owns a collection without rows; at the next
    transition, with target batch size 0, that collection is prepared and
    its prepared form is passed to [flush_batch]. *)
Lemma NextBatch_submits_empty_collection :
  fresh_local_state = Done (mkLocal (Some empty_collection) 0 0) (initial_world 0) /\
  NextBatch 2048 (mkPartitionInfo 1 1) (mkLocal (Some empty_collection) 0 0) (initial_world 0)
  = Done (mkLocal (Some empty_collection) 0 1)
         (mkWorld (mkGlobal 0 0 [] [] true)
                  [Prepare empty_collection;
                   Acquire m_lock; Release m_lock;
                   Acquire m_flush_lock; Acquire m_lock; Release m_lock;
                   Flush (prepare_batch empty_collection);
                   Release m_flush_lock;
                   Acquire m_flush_lock; Acquire m_lock; Release m_lock;
                   Release m_flush_lock]) /\
  ~ empty_accumulator_not_submitted 2048.
Proof.
  split; [vm_compute; reflexivity|].
  split; [vm_compute; reflexivity|].
  intros H.
  destruct (H (mkPartitionInfo 1 1) (mkLocal (Some empty_collection) 0 0) empty_collection
              (initial_world 0) eq_refl eq_refl) as [l' E].
  vm_compute in E. discriminate.
Qed.

(** ** Count conservation *)

Lemma total_rows_app (a b : list DataChunk) :
  total_rows (a ++ b) = total_rows a + total_rows b.
Proof.
  unfold total_rows. induction a as [|ch a IH]; simpl; [reflexivity|].
  rewrite IH. lia.
Qed.

Lemma total_rows_nonneg (chunks : list DataChunk) : 0 <= total_rows chunks.
Proof.
  unfold total_rows. induction chunks as [|ch chunks IH]; simpl; [lia|].
  pose proof (chunk_size_nonneg ch). lia.
Qed.

Section CountConservation.
Variable STANDARD_VECTOR_SIZE : idx_t.

(** A local state has counted, modulo 2^64, the rows of the chunks it was
    given. *)
Lemma local_run_rows_copied l chunks :
  local_run STANDARD_VECTOR_SIZE l chunks ->
  local_rows_copied l = idx_cast (total_rows chunks).
Proof.
  induction 1 as [|l chunks chunk Hrun IH|l chunks info w l' w' Hrun IH Hnext].
  - reflexivity.
  - rewrite total_rows_app.
    assert (Hsink : local_rows_copied (Sink chunk l)
                    = idx_cast (local_rows_copied l + chunk_size chunk)).
    { unfold Sink. destruct (collection l); reflexivity. }
    rewrite Hsink, IH, idx_cast_add_l.
    f_equal. unfold total_rows. simpl. lia.
  - rewrite (NextBatch_local_state _ _ _ _ _ _ Hnext). simpl. exact IH.
Qed.

(** The global counter is, modulo 2^64, the sum of the counters of the
    local states combined so far. *)
Lemma global_run_rows_copied w ls :
  global_run STANDARD_VECTOR_SIZE w ls ->
  rows_copied (gstate w)
  = idx_cast (fold_right (fun l n => local_rows_copied l + n) 0 ls).
Proof.
  induction 1 as [B|w ls info l l' w' Hrun IH Hnext|w ls l w' Hrun IH Hcomb].
  - reflexivity.
  - pose proof (NextBatch_keeps_rows_copied STANDARD_VECTOR_SIZE info l w) as Hk.
    rewrite Hnext in Hk. simpl in Hk. rewrite Hk. exact IH.
  - unfold Combine, modify in Hcomb. inversion Hcomb; subst; clear Hcomb. simpl.
    rewrite IH, idx_cast_add_l. f_equal. lia.
Qed.

Lemma combined_rows ls chunkss :
  Forall2 (local_run STANDARD_VECTOR_SIZE) ls chunkss ->
  idx_cast (fold_right (fun l n => local_rows_copied l + n) 0 ls)
  = idx_cast (total_rows (concat chunkss)).
Proof.
  induction 1 as [|l chunks ls chunkss Hl Hrest IH]; [reflexivity|].
  simpl. rewrite total_rows_app.
  rewrite <- idx_cast_add_r, IH, idx_cast_add_r.
  rewrite (local_run_rows_copied _ _ Hl), idx_cast_add_l. reflexivity.
Qed.

(** C8. Let the global state be reached by any sequence of batch
    transitions and [Combine] calls, the combined local states having been
    given the chunks [chunkss] (in any distribution over the local states and
    any order of combining).  If [Finalize] then returns normally, [GetData]
    reports the summed size of all these chunks, provided that sum is in the
    range of a BIGINT. *)
Theorem rows_copied_is_total_sunk
        (w w' : World) (ls : list BatchCopyToLocalState) (chunkss : list (list DataChunk)) :
  global_run STANDARD_VECTOR_SIZE w ls ->
  Forall2 (local_run STANDARD_VECTOR_SIZE) ls chunkss ->
  Finalize STANDARD_VECTOR_SIZE w = Done tt w' ->
  total_rows (concat chunkss) < 2 ^ 63 ->
  GetData (gstate w') = total_rows (concat chunkss).
Proof.
  intros Hglobal Hlocal Hfinal Hrange.
  pose proof (Finalize_keeps_rows_copied STANDARD_VECTOR_SIZE w) as Hk.
  rewrite Hfinal in Hk. simpl in Hk.
  unfold GetData. rewrite Hk.
  rewrite (global_run_rows_copied _ _ Hglobal), (combined_rows _ _ Hlocal).
  pose proof (total_rows_nonneg (concat chunkss)) as Hpos.
  rewrite idx_cast_small by lia.
  apply int64_cast_small. lia.
Qed.

(** Whatever the order in which the same local states are combined, the
    counter ends the same. *)
Lemma combine_order_irrelevant ls ls' :
  Permutation ls ls' ->
  fold_right (fun l n => local_rows_copied l + n) 0 ls
  = fold_right (fun l n => local_rows_copied l + n) 0 ls'.
Proof.
  induction 1; simpl; lia.
Qed.

End CountConservation.

Lemma rows_copied_is_total_sunk_witness :
  GetData (gstate (world_of two_producers)) = total_rows (concat [[[1; 2]%nat]; [[3]%nat]]).
Proof.
  pose (a1 := mkLocal (Some empty_collection) 0 0).
  pose (b1 := mkLocal (Some empty_collection) 0 1).
  assert (A1 : local_run 2048 a1 []).
  { apply (local_next 2048 GetLocalSinkState [] (mkPartitionInfo 0 0) (initial_world 0)
                      a1 (initial_world 0) (local_start 2048)). reflexivity. }
  assert (B1 : local_run 2048 b1 []).
  { apply (local_next 2048 GetLocalSinkState [] (mkPartitionInfo 1 0) (initial_world 0)
                      b1 (initial_world 0) (local_start 2048)). reflexivity. }
  pose proof (local_sink 2048 _ _ [3]%nat B1) as B2.
  pose proof (local_sink 2048 _ _ [1; 2]%nat A1) as A2.
  pose (w1 := world_of (NextBatch 2048 (mkPartitionInfo 2 0) (Sink [3]%nat b1)
                                  (initial_world 0))).
  pose (b3 := mkLocal (Some empty_collection) 1 2).
  assert (N1 : NextBatch 2048 (mkPartitionInfo 2 0) (Sink [3]%nat b1) (initial_world 0)
               = Done b3 w1) by (vm_compute; reflexivity).
  pose (w2 := world_of (NextBatch 2048 (mkPartitionInfo 3 2) (Sink [1; 2]%nat a1) w1)).
  pose (a3 := mkLocal (Some empty_collection) 2 3).
  assert (N2 : NextBatch 2048 (mkPartitionInfo 3 2) (Sink [1; 2]%nat a1) w1
               = Done a3 w2) by (vm_compute; reflexivity).
  pose proof (local_next 2048 _ _ _ _ _ _ B2 N1) as B3.
  pose proof (local_next 2048 _ _ _ _ _ _ A2 N2) as A3.
  pose proof (global_next 2048 _ _ _ _ _ _
                (global_next 2048 _ _ _ _ _ _ (global_start 2048 0) N1) N2) as G2.
  pose (w3 := world_of (Combine b3 w2)).
  pose (w4 := world_of (Combine a3 w3)).
  assert (G4 : global_run 2048 w4 [a3; b3]).
  { apply (global_combine 2048 w3 [b3] a3 w4); [|reflexivity].
    apply (global_combine 2048 w2 [] b3 w3); [exact G2 | reflexivity]. }
  apply (rows_copied_is_total_sunk 2048 w4 (world_of two_producers) [a3; b3]
                                   [[[1; 2]%nat]; [[3]%nat]] G4).
  - constructor; [exact A3|]. constructor; [exact B3|]. constructor.
  - vm_compute. reflexivity.
  - vm_compute. reflexivity.
Defined.

(** ** The repartition loops *)

Lemma find_place {V} (k : idx_t) (v : V) (m : StdMap.t V) :
  StdMap.find k m = None -> StdMap.find k (StdMap.place k v m) = Some v.
Proof.
  induction m as [|[k' v'] rest IH]; simpl; intros H.
  - rewrite Z.eqb_refl. reflexivity.
  - destruct (k =? k') eqn:E; [discriminate|].
    destruct (k <? k'); simpl.
    + rewrite Z.eqb_refl. reflexivity.
    + rewrite E. apply IH. exact H.
Qed.

Lemma find_replace {V} (k : idx_t) (v : V) (m : StdMap.t V) :
  StdMap.find k m <> None -> StdMap.find k (StdMap.replace k v m) = Some v.
Proof.
  induction m as [|[k' v'] rest IH]; simpl; intros H.
  - congruence.
  - destruct (k =? k') eqn:E; simpl.
    + rewrite Z.eqb_refl. reflexivity.
    + rewrite E. apply IH. exact H.
Qed.

Lemma find_assign {V} (k : idx_t) (v : V) (m : StdMap.t V) :
  StdMap.find k (StdMap.assign k v m) = Some v.
Proof.
  unfold StdMap.assign. destruct (StdMap.find k m) eqn:E.
  - apply find_replace. congruence.
  - apply find_place. exact E.
Qed.

(** The association list stays in key order under the map operations, and
    its head, which stands for [begin()], carries the least key. *)
Lemma place_ordered_from {V} (k : idx_t) (v : V) (m : StdMap.t V) :
  forall lo, lo < k -> StdMap.find k m = None ->
             StdMap.ordered_from lo m -> StdMap.ordered_from lo (StdMap.place k v m).
Proof.
  induction m as [|[k' v'] rest IH]; simpl; intros lo Hlo Hfree Hord.
  - auto.
  - destruct (k =? k') eqn:E; [discriminate|].
    destruct Hord as [Hk' Hrest].
    destruct (k <? k') eqn:E2; simpl.
    + repeat split; [assumption | lia | assumption].
    + split; [assumption|]. apply IH; [lia | assumption | assumption].
Qed.

Lemma insert_ordered {V} (k : idx_t) (v : V) (m : StdMap.t V) :
  StdMap.ordered m -> StdMap.ordered (fst (StdMap.insert k v m)).
Proof.
  unfold StdMap.insert. destruct (StdMap.find k m) eqn:Hfree; simpl; [auto|].
  destruct m as [|[k' v'] rest]; simpl; [auto|]. intros Hord.
  simpl in Hfree. destruct (k =? k') eqn:E; [discriminate|].
  destruct (k <? k') eqn:E2; simpl.
  - split; [lia | assumption].
  - apply place_ordered_from; [lia | assumption | assumption].
Qed.

Lemma ordered_from_least {V} (m : StdMap.t V) :
  forall lo, StdMap.ordered_from lo m -> forall k v, In (k, v) m -> lo < k.
Proof.
  induction m as [|[k' v'] rest IH]; simpl; intros lo Hord k v Hin; [contradiction|].
  destruct Hord as [Hlo Hrest]. destruct Hin as [Heq|Hin].
  - inversion Heq; subst. assumption.
  - specialize (IH _ Hrest _ _ Hin). lia.
Qed.

(** What [gather] takes is a prefix of the map, all below [min_index];
    [max_batch_index] is the key of the last entry taken. *)
Lemma gather_spec (min_index : idx_t) (raw : StdMap.t ColumnDataCollection) :
  forall mx cols mx' cols' remaining,
    gather raw min_index mx cols = (mx', cols', remaining) ->
    exists drained,
      raw = drained ++ remaining /\
      cols' = cols ++ map snd drained /\
      mx' = fold_left (fun _ e => Some (fst e)) drained mx /\
      Forall (fun e => fst e < min_index) drained.
Proof.
  induction raw as [|[k c] rest IH]; intros mx cols mx' cols' remaining; simpl.
  - intros H. inversion H; subst. exists []. simpl. rewrite app_nil_r. auto.
  - destruct (k >=? min_index) eqn:E.
    + intros H. inversion H; subst. exists []. simpl. rewrite app_nil_r. auto.
    + intros H. destruct (IH _ _ _ _ _ H) as (drained & Hraw & Hcols & Hmx & Hlt).
      exists ((k, c) :: drained). simpl. repeat split.
      * rewrite Hraw. reflexivity.
      * rewrite Hcols, <- app_assoc. reflexivity.
      * exact Hmx.
      * constructor; [simpl; lia | exact Hlt].
Qed.

(** Once a collection was gathered, [max_batch_index] has a value: the key
    of the entry next to what is left of the map. *)
Lemma gather_max_batch_index (min_index : idx_t) (raw : StdMap.t ColumnDataCollection)
      mx' cols' remaining :
  gather raw min_index None [] = (mx', cols', remaining) ->
  cols' <> [] ->
  exists k front c, mx' = Some k /\ raw = front ++ (k, c) :: remaining /\ k < min_index.
Proof.
  intros H Hne.
  destruct (gather_spec _ _ _ _ _ _ _ H) as (drained & Hraw & Hcols & Hmx & Hlt).
  simpl in Hcols.
  assert (Hd : drained <> []) by (intros ->; simpl in Hcols; congruence).
  destruct (exists_last Hd) as (front & [k c] & ->).
  exists k, front, c. repeat split.
  - rewrite Hmx, fold_left_app. reflexivity.
  - rewrite Hraw, <- app_assoc. reflexivity.
  - apply Forall_app in Hlt. destruct Hlt as [_ Hl]. inversion Hl; subst. assumption.
Qed.

Section RepartitionLoops.
Variable STANDARD_VECTOR_SIZE : idx_t.
Variable B : idx_t.

(** Row order: the chunk loop moves rows from the chunks to the accumulator
    and from the accumulator to the result, never past one another. *)
Lemma append_chunks_rows chunks : forall cur result,
  flat_map Rows (snd (append_chunks B chunks cur result))
    ++ Rows (fst (append_chunks B chunks cur result))
  = flat_map Rows result ++ Rows cur ++ concat chunks.
Proof.
  induction chunks as [|ch rest IH]; intros cur result; simpl.
  - rewrite app_nil_r. reflexivity.
  - destruct (Count (Append cur ch) <? B); rewrite IH.
    + rewrite Rows_Append, <- app_assoc. reflexivity.
    + rewrite flat_map_app. simpl. rewrite Rows_Append.
      repeat rewrite <- app_assoc. reflexivity.
Qed.

Lemma repartition_rows collections : forall cur result,
  flat_map Rows (snd (repartition STANDARD_VECTOR_SIZE B collections cur result))
    ++ accumulator_rows (fst (repartition STANDARD_VECTOR_SIZE B collections cur result))
  = flat_map Rows result ++ accumulator_rows cur ++ flat_map Rows collections.
Proof.
  induction collections as [|c rest IH]; intros cur result; simpl.
  - rewrite app_nil_r. reflexivity.
  - destruct cur as [cur|].
    + rewrite IH. simpl.
      rewrite app_assoc, append_chunks_rows. unfold Rows at 4.
      repeat rewrite <- app_assoc. reflexivity.
    + destruct (CorrectSizeForBatch STANDARD_VECTOR_SIZE (Count c) B).
      * rewrite IH. simpl. rewrite flat_map_app. simpl.
        repeat rewrite <- app_assoc. reflexivity.
      * destruct (Count c <? B).
        -- rewrite IH. simpl. reflexivity.
        -- rewrite IH. simpl.
           rewrite app_assoc, append_chunks_rows. unfold Rows at 3.
           repeat rewrite <- app_assoc. reflexivity.
Qed.

(** Sizes. *)
Lemma CorrectSizeForBatch_spec (n : idx_t) :
  0 <= n < 2 ^ 63 -> 0 <= B < 2 ^ 63 ->
  CorrectSizeForBatch STANDARD_VECTOR_SIZE n B = (Z.abs (n - B) <? STANDARD_VECTOR_SIZE).
Proof.
  intros Hn HB. unfold CorrectSizeForBatch, AbsValue_int64.
  rewrite (int64_cast_small n), (int64_cast_small B) by lia.
  rewrite (int64_cast_small (n - B)) by lia.
  destruct (n - B <? 0) eqn:E.
  - rewrite int64_cast_small by lia. rewrite idx_cast_small by lia.
    f_equal. lia.
  - rewrite idx_cast_small by lia. f_equal. lia.
Qed.

Hypothesis B_range : 0 < B < 2 ^ 63.

Lemma append_chunks_sizes chunks : forall cur result,
  Count cur < B ->
  Forall (fun ch => chunk_size ch <= STANDARD_VECTOR_SIZE) chunks ->
  Forall (fun c => within_tolerance STANDARD_VECTOR_SIZE B (Count c)) result ->
  Count (fst (append_chunks B chunks cur result)) < B /\
  Forall (fun c => within_tolerance STANDARD_VECTOR_SIZE B (Count c))
         (snd (append_chunks B chunks cur result)).
Proof.
  induction chunks as [|ch rest IH]; intros cur result Hcur Hchunks Hres; simpl.
  - auto.
  - inversion Hchunks as [|? ? Hch Hrest]; subst.
    destruct (Count (Append cur ch) <? B) eqn:E.
    + apply IH; [lia | assumption | assumption].
    + apply IH; [rewrite Count_empty; lia | assumption |].
      apply Forall_app. split; [assumption|].
      constructor; [|constructor].
      unfold within_tolerance. rewrite Count_Append in *.
      pose proof (Count_nonneg cur). lia.
Qed.

Lemma repartition_sizes collections : forall cur result,
  match cur with Some c => Count c < B | None => True end ->
  Forall (fun c => collection_in_range STANDARD_VECTOR_SIZE c = true) collections ->
  Forall (fun c => within_tolerance STANDARD_VECTOR_SIZE B (Count c)) result ->
  match fst (repartition STANDARD_VECTOR_SIZE B collections cur result) with
  | Some c => Count c < B
  | None => True
  end /\
  Forall (fun c => within_tolerance STANDARD_VECTOR_SIZE B (Count c))
         (snd (repartition STANDARD_VECTOR_SIZE B collections cur result)).
Proof.
  induction collections as [|c rest IH]; intros cur result Hcur Hcols Hres; simpl.
  - auto.
  - inversion Hcols as [|? ? Hc Hrest]; subst.
    unfold collection_in_range in Hc. apply andb_true_iff in Hc.
    destruct Hc as [Hcount Hchunks].
    assert (Hfit : Forall (fun ch => chunk_size ch <= STANDARD_VECTOR_SIZE) (Chunks c)).
    { apply Forall_forall. intros ch Hin.
      rewrite forallb_forall in Hchunks. specialize (Hchunks ch Hin). lia. }
    pose proof (Count_nonneg c) as Hc0.
    destruct cur as [cur|].
    + destruct (append_chunks_sizes (Chunks c) cur result Hcur Hfit Hres) as [H1 H2].
      apply IH; assumption.
    + destruct (CorrectSizeForBatch STANDARD_VECTOR_SIZE (Count c) B) eqn:E.
      * apply IH; [exact I | assumption |].
        apply Forall_app. split; [assumption|].
        constructor; [|constructor].
        rewrite CorrectSizeForBatch_spec in E by lia.
        unfold within_tolerance. lia.
      * destruct (Count c <? B) eqn:E2.
        -- apply IH; [lia | assumption | assumption].
        -- assert (H0 : Count empty_collection < B) by (rewrite Count_empty; lia).
           destruct (append_chunks_sizes (Chunks c) empty_collection result H0 Hfit Hres)
             as [H1 H2].
           apply IH; assumption.
Qed.

End RepartitionLoops.

(** ** Sizes of the emitted collections *)

Lemma prepared_of_pass_events (result : list ColumnDataCollection) :
  prepared_collections (Acquire m_lock :: prepare_flush_events result ++ [Release m_lock])
  = result.
Proof.
  change (prepared_collections ([Acquire m_lock] ++ prepare_flush_events result
                                  ++ [Release m_lock]) = result).
  rewrite !prepared_collections_app, prepared_of_prepare_flush_events.
  simpl. apply app_nil_r.
Qed.

Section RepartitionSizes.
Variable STANDARD_VECTOR_SIZE : idx_t.

(** C6. Let the target batch size [B] be positive (and in the range of
    [int64_t]), and let every raw collection have chunks of at most
    [STANDARD_VECTOR_SIZE] rows.
    - Every collection that a non-final pass hands to [prepare_batch] has a
      row count within [STANDARD_VECTOR_SIZE] of [B].
    - When the loop over the gathered collections leaves a non-empty
      accumulator [cur]: a non-final pass that goes ahead and finds [cur]
      outside the tolerance returns normally, emits the loop's result
      without [cur], and stores [cur] in the raw map under the index of the
      last entry it took out; a final pass emits the loop's result followed
      by [cur] and leaves in the raw map only what it did not take. *)
Theorem repartition_batch_sizes (w : World) (min_index : idx_t) :
  let g := gstate w in
  let B := batch_size g in
  0 < B < 2 ^ 63 ->
  raw_in_range STANDARD_VECTOR_SIZE (raw_batches g) = true ->
  (forall c,
     In c (prepared_collections
             (events_since w (world_of (RepartitionBatches STANDARD_VECTOR_SIZE
                                                           min_index false w)))) ->
     within_tolerance STANDARD_VECTOR_SIZE B (Count c)) /\
  (forall max_batch_index collections remaining cur result,
     gather (raw_batches g) min_index None [] = (max_batch_index, collections, remaining) ->
     repartition STANDARD_VECTOR_SIZE B collections None [] = (Some cur, result) ->
     0 < Count cur ->
     (B <= candidate_rows_scan (raw_batches g) min_index 0 ->
      ~ within_tolerance STANDARD_VECTOR_SIZE B (Count cur) ->
      exists k front c w',
        raw_batches g = front ++ (k, c) :: remaining /\
        RepartitionBatches STANDARD_VECTOR_SIZE min_index false w = Done tt w' /\
        raw_batches (gstate w') = StdMap.assign k cur remaining /\
        StdMap.find k (raw_batches (gstate w')) = Some cur /\
        prepared_collections (events_since w w') = result /\
        ~ In cur (prepared_collections (events_since w w'))) /\
     (exists w',
        RepartitionBatches STANDARD_VECTOR_SIZE min_index true w = Done tt w' /\
        raw_batches (gstate w') = remaining /\
        prepared_collections (events_since w w') = result ++ [cur])).
Proof.
  intros g B HB Hraw.
  assert (Hgathered : forall mx cols rem,
            gather (raw_batches g) min_index None [] = (mx, cols, rem) ->
            Forall (fun c => collection_in_range STANDARD_VECTOR_SIZE c = true) cols).
  { intros mx cols rem Hg.
    destruct (gather_spec _ _ _ _ _ _ _ Hg) as (drained & Hsplit & Hcols & _ & _).
    simpl in Hcols. subst cols.
    unfold raw_in_range in Hraw. rewrite forallb_forall in Hraw.
    apply Forall_forall. intros c Hin. apply in_map_iff in Hin.
    destruct Hin as ([k c'] & <- & Hin). apply Hraw.
    rewrite Hsplit. apply in_or_app. left. exact Hin. }
  assert (Hloop : forall mx cols rem,
            gather (raw_batches g) min_index None [] = (mx, cols, rem) ->
            match fst (repartition STANDARD_VECTOR_SIZE B cols None []) with
            | Some c => Count c < B
            | None => True
            end /\
            Forall (fun c => within_tolerance STANDARD_VECTOR_SIZE B (Count c))
                   (snd (repartition STANDARD_VECTOR_SIZE B cols None []))).
  { intros mx cols rem Hg.
    apply repartition_sizes; [exact HB | exact I | exact (Hgathered _ _ _ Hg) | constructor]. }
  split.
  - intros c.
    rewrite RepartitionBatches_unfold. cbv zeta. fold g. fold B.
    destruct (raw_batches g) as [|e rest] eqn:Eraw.
    { cbn [world_of]. rewrite events_since_app, prepared_of_pass_events. intros []. }
    destruct (negb false && _).
    { cbn [world_of]. rewrite events_since_app, prepared_of_pass_events. intros []. }
    destruct (gather (e :: rest) min_index None []) as [[mx cols] rem] eqn:Eg.
    destruct (Hloop _ _ _ eq_refl) as [Hcur Hres].
    destruct (repartition STANDARD_VECTOR_SIZE B cols None []) as [[cur|] result];
      simpl in Hcur, Hres.
    + assert (Hall : forall c, In c result ->
                               within_tolerance STANDARD_VECTOR_SIZE B (Count c)).
      { apply Forall_forall. exact Hres. }
      destruct (Count cur >? 0).
      * cbn [orb].
        destruct (CorrectSizeForBatch STANDARD_VECTOR_SIZE (Count cur) B) eqn:Ec.
        -- cbn [world_of]. rewrite events_since_app, prepared_of_pass_events.
           intros Hin. apply in_app_or in Hin. destruct Hin as [Hin|[<-|[]]].
           ++ apply Hall. exact Hin.
           ++ pose proof (Count_nonneg cur).
              rewrite CorrectSizeForBatch_spec in Ec by lia.
              unfold within_tolerance. lia.
        -- destruct mx; cbn [world_of]; rewrite events_since_app, prepared_of_pass_events.
           ++ apply Hall.
           ++ intros [].
      * cbn [world_of]. rewrite events_since_app, prepared_of_pass_events. apply Hall.
    + cbn [world_of]. rewrite events_since_app, prepared_of_pass_events. intros [].
  - intros mx cols rem cur result Hg Hrep Hpos.
    destruct (Hloop _ _ _ Hg) as [Hcur Hres]. rewrite Hrep in Hcur, Hres. simpl in Hcur, Hres.
    assert (Hcols : cols <> []).
    { intros ->. simpl in Hrep. discriminate. }
    destruct (gather_max_batch_index _ _ _ _ _ Hg Hcols) as (k & front & ck & Hmx & Hsplit & _).
    assert (Hne : exists e rest, raw_batches g = e :: rest).
    { rewrite Hsplit. destruct front as [|e front]; simpl; eauto. }
    destruct Hne as (e & rest & Eraw).
    assert (Hgt : (Count cur >? 0) = true) by lia.
    split.
    + intros Hscan Htol.
      exists k, front, ck.
      rewrite RepartitionBatches_unfold. cbv zeta. fold g. fold B.
      rewrite Eraw. rewrite <- Eraw.
      assert (Hguard : negb false && (candidate_rows_scan (raw_batches g) min_index 0 <? B)
                       = false).
      { simpl. lia. }
      rewrite Hguard, Hg, Hrep, Hgt.
      assert (Hc : CorrectSizeForBatch STANDARD_VECTOR_SIZE (Count cur) B = false).
      { rewrite CorrectSizeForBatch_spec by lia.
        unfold within_tolerance in Htol. lia. }
      rewrite Hc, Hmx. simpl.
      eexists. split; [exact Hsplit|]. split; [reflexivity|]. simpl.
      split; [reflexivity|]. split; [apply find_assign|].
      rewrite events_since_app, prepared_of_pass_events.
      split; [reflexivity|].
      intros Hin. apply Htol.
      rewrite Forall_forall in Hres. exact (Hres _ Hin).
    + rewrite RepartitionBatches_unfold. cbv zeta. fold g. fold B.
      rewrite Eraw. rewrite <- Eraw.
      simpl negb. simpl andb. rewrite Hg, Hrep, Hgt. simpl.
      eexists. split; [reflexivity|]. simpl.
      split; [reflexivity|].
      rewrite events_since_app, prepared_of_pass_events. reflexivity.
Qed.

End RepartitionSizes.

Lemma repartition_batch_sizes_witness :
  0 < batch_size (gstate two_raw_batches) < 2 ^ 63 /\
  raw_in_range 2 (raw_batches (gstate two_raw_batches)) = true /\
  exists k front c w',
    raw_batches (gstate two_raw_batches) = front ++ (k, c) :: [] /\
    RepartitionBatches 2 2 false two_raw_batches = Done tt w' /\
    raw_batches (gstate w') = StdMap.assign k (mkCollection [[5]%nat]) [] /\
    StdMap.find k (raw_batches (gstate w')) = Some (mkCollection [[5]%nat]) /\
    prepared_collections (events_since two_raw_batches w')
    = [mkCollection [[1; 2]%nat; [3; 4]%nat]] /\
    ~ In (mkCollection [[5]%nat]) (prepared_collections (events_since two_raw_batches w')).
Proof.
  assert (Hrange : 0 < batch_size (gstate two_raw_batches) < 2 ^ 63) by (simpl; lia).
  assert (Hraw : raw_in_range 2 (raw_batches (gstate two_raw_batches)) = true)
    by reflexivity.
  split; [exact Hrange|]. split; [exact Hraw|].
  apply (proj1 (proj2 (repartition_batch_sizes 2 two_raw_batches 2 Hrange Hraw)
                      (Some 1)
                      [mkCollection [[1; 2]%nat]; mkCollection [[3; 4]%nat; [5]%nat]]
                      []
                      (mkCollection [[5]%nat])
                      [mkCollection [[1; 2]%nat; [3; 4]%nat]]
                      eq_refl eq_refl eq_refl)).
  - vm_compute. discriminate.
  - unfold within_tolerance. vm_compute. intros H. discriminate H.
Defined.

(** ** Row order of a pass that completes *)

Section RepartitionOrder.
Variable STANDARD_VECTOR_SIZE : idx_t.

(** Whenever a pass that goes ahead returns normally, the rows it emitted,
    followed by the rows of the accumulator it put back into the raw map (if
    any), are the rows of the gathered collections in map order. *)
Lemma repartition_pass_rows (min_index : idx_t) (final : bool) (w w' : World)
      mx cols remaining :
  raw_batches (gstate w) <> [] ->
  negb final && (candidate_rows_scan (raw_batches (gstate w)) min_index 0
                 <? batch_size (gstate w)) = false ->
  gather (raw_batches (gstate w)) min_index None [] = (mx, cols, remaining) ->
  RepartitionBatches STANDARD_VECTOR_SIZE min_index final w = Done tt w' ->
  exists put_back,
    flat_map Rows (prepared_collections (events_since w w')) ++ accumulator_rows put_back
    = flat_map Rows cols /\
    match put_back with
    | None => raw_batches (gstate w') = remaining
    | Some cur => exists k, mx = Some k /\
                            raw_batches (gstate w') = StdMap.assign k cur remaining
    end.
Proof.
  intros Hne Hguard Hg.
  rewrite RepartitionBatches_unfold. cbv zeta.
  destruct (raw_batches (gstate w)) as [|e rest] eqn:Eraw; [congruence|].
  rewrite Hguard, Hg.
  pose proof (repartition_rows STANDARD_VECTOR_SIZE (batch_size (gstate w)) cols None [])
    as Hrows.
  destruct (repartition STANDARD_VECTOR_SIZE (batch_size (gstate w)) cols None [])
    as [[cur|] result]; [|discriminate].
  simpl in Hrows.
  destruct (Count cur >? 0) eqn:Epos.
  - destruct (final || _).
    + intros H. inversion H; subst; clear H. exists None.
      rewrite events_since_app, prepared_of_pass_events. simpl.
      rewrite flat_map_app. simpl. rewrite !app_nil_r. split; [exact Hrows | reflexivity].
    + destruct mx as [k|]; [|discriminate].
      intros H. inversion H; subst; clear H. exists (Some cur).
      rewrite events_since_app, prepared_of_pass_events. simpl.
      split; [exact Hrows | exists k; split; reflexivity].
  - intros H. inversion H; subst; clear H. exists None.
    rewrite events_since_app, prepared_of_pass_events. simpl.
    assert (Hempty : Rows cur = []).
    { rewrite Z.gtb_ltb in Epos. apply Z.ltb_ge in Epos.
      pose proof (Count_nonneg cur) as H0.
      assert (Hz : Count cur = 0) by lia.
      unfold Count in Hz. destruct (Rows cur); [reflexivity | discriminate Hz]. }
    rewrite Hempty in Hrows. rewrite !app_nil_r in *. split; [exact Hrows | reflexivity].
Qed.

End RepartitionOrder.

(** * Further properties of the operator *)

(** ** What a flush writes *)

Lemma events_since_eq (w w' : World) (evs : list Event) :
  trace w' = trace w ++ evs -> events_since w w' = evs.
Proof.
  intros H. unfold events_since. rewrite H. clear H.
  induction (trace w) as [|e tr IH]; simpl; [reflexivity | exact IH].
Qed.

Lemma Done_world_inj {A} (a b : A) (w w' : World) : Done a w = Done b w' -> w = w'.
Proof. intros H. inversion H. reflexivity. Qed.

(** One turn of the loop, written out. *)
Lemma FlushBatchData_body_eq (min_index : idx_t) (w : World) :
  FlushBatchData_body min_index w =
  let stop :=
    Done Break (mkWorld (set_active_flush true (gstate w))
                        (trace w ++ [Acquire m_flush_lock; Acquire m_lock;
                                     Release m_lock; Release m_flush_lock])) in
  match batch_data (gstate w) with
  | (k, Some p) :: rest =>
      if k >=? min_index then stop
      else Done Continue
             (mkWorld (set_active_flush false (set_batch_data rest (gstate w)))
                      (trace w ++ [Acquire m_flush_lock; Acquire m_lock; Release m_lock;
                                   Flush p; Release m_flush_lock]))
  | _ => stop
  end.
Proof.
  unfold FlushBatchData_body, fetch_next_batch, lock_guard, bind, emit, modify, gets, ret.
  simpl.
  destruct (batch_data (gstate w)) as [|[k [p|]] rest]; simpl;
    try destruct (k >=? min_index); simpl;
    repeat rewrite <- app_assoc; reflexivity.
Qed.

(** The loop, for any bound that exceeds the size of the prepared map. *)
Lemma FlushBatchData_while_run (min_index : idx_t) (turns : nat) :
  forall w,
    (length (batch_data (gstate w)) < turns)%nat ->
    active_flush (gstate w) = false ->
    exists evs,
      FlushBatchData_while turns min_index w
      = Some (Done tt (mkWorld
                         (set_active_flush true
                            (set_batch_data
                               (snd (ready_prefix min_index (batch_data (gstate w))))
                               (gstate w)))
                         (trace w ++ evs))) /\
      flushed_collections evs
      = map prepared_collection (fst (ready_prefix min_index (batch_data (gstate w)))) /\
      prepared_collections evs = [] /\
      replay_locks [] evs = Some [].
Proof.
  induction turns as [|n IH]; intros w Hlen Hflag; [lia|].
  simpl. rewrite Hflag, FlushBatchData_body_eq. cbv zeta.
  assert (Hstop : forall bd, bd = batch_data (gstate w) ->
            ready_prefix min_index bd = ([], bd) ->
            exists evs,
              Some (Done tt (mkWorld (set_active_flush true (gstate w))
                        (trace w ++ [Acquire m_flush_lock; Acquire m_lock;
                                     Release m_lock; Release m_flush_lock])))
              = Some (Done tt (mkWorld
                         (set_active_flush true
                            (set_batch_data (snd (ready_prefix min_index bd)) (gstate w)))
                         (trace w ++ evs))) /\
              flushed_collections evs
              = map prepared_collection (fst (ready_prefix min_index bd)) /\
              prepared_collections evs = [] /\
              replay_locks [] evs = Some []).
  { intros bd Hbd Hpre. rewrite Hpre. simpl. rewrite Hbd, set_batch_data_same.
    eexists. split; [reflexivity|]. repeat split. }
  destruct (batch_data (gstate w)) as [|[k [p|]] rest] eqn:Ebd.
  - apply (Hstop []); reflexivity.
  - destruct (k >=? min_index) eqn:Ek.
    + apply (Hstop ((k, Some p) :: rest)); [reflexivity|].
      simpl. assert ((k <? min_index) = false) as -> by lia. reflexivity.
    + destruct (IH (mkWorld (set_active_flush false (set_batch_data rest (gstate w)))
                            (trace w ++ [Acquire m_flush_lock; Acquire m_lock; Release m_lock;
                                         Flush p; Release m_flush_lock])))
        as (evs & Hrun & Hflushed & Hprepared & Hlocks).
      * simpl. simpl in Hlen. lia.
      * reflexivity.
      * rewrite Hrun. simpl.
        assert ((k <? min_index) = true) as -> by lia. simpl.
        exists ([Acquire m_flush_lock; Acquire m_lock; Release m_lock;
                 Flush p; Release m_flush_lock] ++ evs).
        rewrite <- app_assoc. split; [reflexivity|].
        rewrite flushed_collections_app, prepared_collections_app, Hflushed, Hprepared.
        repeat split. simpl. exact Hlocks.
  - apply (Hstop ((k, None) :: rest)); reflexivity.
Qed.

Lemma FlushBatchData_run (min_index : idx_t) (w : World) :
  active_flush (gstate w) = false ->
  exists evs,
    FlushBatchData min_index w
    = Done tt (mkWorld
                 (set_active_flush true
                    (set_batch_data (snd (ready_prefix min_index (batch_data (gstate w))))
                                    (gstate w)))
                 (trace w ++ evs)) /\
    flushed_collections evs
    = map prepared_collection (fst (ready_prefix min_index (batch_data (gstate w)))) /\
    prepared_collections evs = [] /\
    replay_locks [] evs = Some [].
Proof.
  intros Hflag.
  destruct (FlushBatchData_while_run min_index (S (length (batch_data (gstate w)))) w)
    as (evs & Hrun & Hrest); [lia | exact Hflag |].
  exists evs. unfold FlushBatchData. rewrite Hrun. split; [reflexivity | exact Hrest].
Qed.

(** X1. A [FlushBatchData] call that finds [active_flush] set returns at
    once and changes nothing.  A call that finds it clear and returns
    normally has passed to [flush_batch], in map order, exactly the entries
    at the head of the prepared map that are prepared and below [min_index],
    has removed them from the map, has prepared nothing, and has changed
    nothing else in the global state but [active_flush], which it leaves
    set. *)
Theorem FlushBatchData_writes_ready_prefix (min_index : idx_t) (w : World) :
  (active_flush (gstate w) = true -> FlushBatchData min_index w = Done tt w) /\
  (active_flush (gstate w) = false ->
   forall w',
     FlushBatchData min_index w = Done tt w' ->
     gstate w' = set_active_flush true
                   (set_batch_data (snd (ready_prefix min_index (batch_data (gstate w))))
                                   (gstate w)) /\
     flushed_collections (events_since w w')
     = map prepared_collection (fst (ready_prefix min_index (batch_data (gstate w)))) /\
     prepared_collections (events_since w w') = []).
Proof.
  split.
  - apply FlushBatchData_flag_set.
  - intros Hflag w' Hdone.
    destruct (FlushBatchData_run min_index w Hflag) as (evs & Hrun & Hf & Hp & _).
    rewrite Hrun in Hdone. apply Done_world_inj in Hdone. subst w'. simpl.
    rewrite events_since_app. repeat split; assumption.
Qed.

Lemma FlushBatchData_writes_ready_prefix_witness :
  let p (n : nat) := prepare_batch (mkCollection [[n]]) in
  let w := mkWorld (mkGlobal 0 0 [] [(0, Some (p 1%nat)); (2, Some (p 2%nat)); (3, None);
                                     (4, Some (p 4%nat))] false) [] in
  exists w',
    FlushBatchData 10 w = Done tt w' /\
    gstate w' = mkGlobal 0 0 [] [(3, None); (4, Some (p 4%nat))] true /\
    flushed_collections (events_since w w') = [mkCollection [[1%nat]]; mkCollection [[2%nat]]] /\
    prepared_collections (events_since w w') = [].
Proof.
  intros p w.
  pose (w' := world_of (FlushBatchData 10 w)).
  assert (Hdone : FlushBatchData 10 w = Done tt w') by (vm_compute; reflexivity).
  exists w'. split; [exact Hdone|].
  exact (proj2 (FlushBatchData_writes_ready_prefix 10 w) eq_refl w' Hdone).
Defined.

(** ** Lock discipline *)

Lemma replay_locks_app (a b : list Event) : forall held held',
  replay_locks held a = Some held' ->
  replay_locks held (a ++ b) = replay_locks held' b.
Proof.
  induction a as [|e a IH]; intros held held' H; simpl in *.
  - inversion H. reflexivity.
  - destruct e as [m|m|c|p].
    + destruct (may_acquire held m); [apply IH; exact H | discriminate].
    + destruct held as [|top below]; [discriminate|].
      destruct (Mutex_eqb top m); [apply IH; exact H | discriminate].
    + apply IH. exact H.
    + destruct held; [discriminate | apply IH; exact H].
Qed.

Section Discipline.
Variable held : list Mutex.

Lemma disciplined_silent {A} (m : M A) :
  (forall w, trace (world_of (m w)) = trace w) -> disciplined held m.
Proof.
  intros H w. exists []. rewrite H, app_nil_r. split; reflexivity.
Qed.

Lemma disciplined_ret {A} (a : A) : disciplined held (ret a).
Proof. apply disciplined_silent. reflexivity. Qed.

Lemma disciplined_throw {A} (e : Exception) : disciplined held (@throw A e).
Proof. apply disciplined_silent. reflexivity. Qed.

Lemma disciplined_gets {A} (h : BatchCopyToGlobalState -> A) : disciplined held (gets h).
Proof. apply disciplined_silent. reflexivity. Qed.

Lemma disciplined_modify (h : BatchCopyToGlobalState -> BatchCopyToGlobalState) :
  disciplined held (modify h).
Proof. apply disciplined_silent. reflexivity. Qed.

Lemma disciplined_prepare (c : ColumnDataCollection) : disciplined held (emit (Prepare c)).
Proof. intros w. exists [Prepare c]. split; reflexivity. Qed.

Lemma disciplined_flush (p : PreparedBatchData) :
  held <> [] -> disciplined held (emit (Flush p)).
Proof.
  intros H w. exists [Flush p]. split; [reflexivity|].
  simpl. destruct held; [congruence | reflexivity].
Qed.

Lemma disciplined_bind {A B} (m : M A) (k : A -> M B) :
  disciplined held m -> (forall a, disciplined held (k a)) -> disciplined held (bind m k).
Proof.
  intros Hm Hk w. unfold bind.
  destruct (Hm w) as (evs & Htr & Hlocks).
  destruct (m w) as [a w1|e w1]; simpl in *.
  - destruct (Hk a w1) as (evs' & Htr' & Hlocks'). exists (evs ++ evs'). split.
    + rewrite Htr', Htr, app_assoc. reflexivity.
    + rewrite (replay_locks_app _ _ _ _ Hlocks). exact Hlocks'.
  - exists evs. split; assumption.
Qed.

End Discipline.

Lemma Mutex_eqb_refl (m : Mutex) : Mutex_eqb m m = true.
Proof. destruct m; reflexivity. Qed.

Lemma disciplined_lock_guard {A} (held : list Mutex) (mu : Mutex) (body : M A) :
  may_acquire held mu = true ->
  disciplined (mu :: held) body ->
  disciplined held (lock_guard mu body).
Proof.
  intros Hmay Hbody w. unfold lock_guard, bind, emit.
  destruct (Hbody (mkWorld (gstate w) (trace w ++ [Acquire mu]))) as (evs & Htr & Hlocks).
  simpl in Htr.
  exists (Acquire mu :: evs ++ [Release mu]). split.
  - destruct (body _) as [a w1|e w1]; simpl in *; rewrite Htr;
      repeat rewrite <- app_assoc; reflexivity.
  - simpl. rewrite Hmay. rewrite (replay_locks_app _ _ _ _ Hlocks).
    simpl. rewrite Mutex_eqb_refl. reflexivity.
Qed.

Ltac discipline_step :=
  first
    [ apply disciplined_ret | apply disciplined_throw | apply disciplined_gets
    | apply disciplined_modify | apply disciplined_prepare
    | apply disciplined_flush; discriminate
    | apply disciplined_lock_guard; [reflexivity|]
    | apply disciplined_bind; [|intros ?] ].

Ltac discipline :=
  repeat first
    [ discipline_step
    | match goal with
      | |- disciplined _ (match ?x with _ => _ end) => destruct x
      | |- disciplined _ (if ?x then _ else _) => destruct x
      | |- disciplined _ (let '(_, _) := ?x in _) => destruct x
      end ].

Lemma prepare_and_flush_disciplined (result : list ColumnDataCollection) :
  disciplined [m_lock] (prepare_and_flush result).
Proof.
  induction result as [|c rest IH]; simpl; [apply disciplined_ret|].
  apply disciplined_bind; [apply disciplined_prepare|]. intros _.
  apply disciplined_bind; [apply disciplined_flush; discriminate|]. intros _. exact IH.
Qed.

Lemma AddBatchData_disciplined k c : disciplined [] (AddBatchData k c).
Proof. unfold AddBatchData. discipline. Qed.

Lemma PrepareBatchData_disciplined k c : disciplined [] (PrepareBatchData k c).
Proof. unfold PrepareBatchData. discipline. Qed.

Lemma FlushBatchData_disciplined min_index : disciplined [] (FlushBatchData min_index).
Proof.
  intros w. destruct (active_flush (gstate w)) eqn:Hflag.
  - rewrite (FlushBatchData_flag_set _ _ Hflag). exists []. simpl.
    rewrite app_nil_r. split; reflexivity.
  - destruct (FlushBatchData_run min_index w Hflag) as (evs & Hrun & _ & _ & Hlocks).
    exists evs. rewrite Hrun. split; [reflexivity | exact Hlocks].
Qed.

Section DisciplineOperator.
Variable STANDARD_VECTOR_SIZE : idx_t.

Lemma RepartitionBatches_disciplined min_index final :
  disciplined [] (RepartitionBatches STANDARD_VECTOR_SIZE min_index final).
Proof.
  unfold RepartitionBatches.
  apply disciplined_lock_guard; [reflexivity|].
  apply disciplined_bind; [apply disciplined_gets|]. intros raw.
  destruct raw as [|e rest]; [apply disciplined_ret|].
  apply disciplined_bind; [apply disciplined_gets|]. intros b.
  destruct (negb final && _); [apply disciplined_ret|].
  destruct (gather (e :: rest) min_index None []) as [[mx cols] rem].
  apply disciplined_bind; [apply disciplined_modify|]. intros _.
  destruct (repartition STANDARD_VECTOR_SIZE b cols None []) as [[cur|] result];
    [|apply disciplined_throw].
  apply disciplined_bind; [|intros ?; apply prepare_and_flush_disciplined].
  discipline.
Qed.

(** X2. Whatever state they are called in and however they end, a batch
    transition and [Finalize] (and each of the four methods they are made of)
    add to the trace a sequence of events in which no mutex is taken while
    already held, the flush lock is never taken while the registry lock is
    held, mutexes are released in the reverse order of their taking,
    [flush_batch] is called only with a mutex held, and every mutex taken has
    been released at the end, also when the call throws. *)
Theorem locks_are_nested_and_released
        (info : PartitionInfo) (l : BatchCopyToLocalState)
        (k min_index : idx_t) (c : ColumnDataCollection) (final : bool) :
  disciplined [] (NextBatch STANDARD_VECTOR_SIZE info l) /\
  disciplined [] (Finalize STANDARD_VECTOR_SIZE) /\
  disciplined [] (AddBatchData k c) /\
  disciplined [] (PrepareBatchData k c) /\
  disciplined [] (RepartitionBatches STANDARD_VECTOR_SIZE min_index final) /\
  disciplined [] (FlushBatchData min_index).
Proof.
  split; [|split; [|split; [|split; [|split]]]].
  - unfold NextBatch.
    apply disciplined_bind; [|intros ?; apply disciplined_ret].
    destruct (collection l) as [c0|]; [|apply disciplined_ret].
    apply disciplined_bind; [apply disciplined_gets|]. intros b.
    apply disciplined_bind; [|intros ?; apply FlushBatchData_disciplined].
    destruct (negb (b =? 0)).
    + apply disciplined_bind; [apply AddBatchData_disciplined|].
      intros ?. apply RepartitionBatches_disciplined.
    + apply PrepareBatchData_disciplined.
  - unfold Finalize.
    apply disciplined_bind; [apply disciplined_gets|]. intros raw.
    apply disciplined_bind; [|intros ?; apply FlushBatchData_disciplined].
    destruct raw; [apply disciplined_ret | apply RepartitionBatches_disciplined].
  - apply AddBatchData_disciplined.
  - apply PrepareBatchData_disciplined.
  - apply RepartitionBatches_disciplined.
  - apply FlushBatchData_disciplined.
Qed.

End DisciplineOperator.

(** ** Successful submissions *)

Lemma find_place_other {V} (k k' : idx_t) (v : V) (m : StdMap.t V) :
  k' <> k -> StdMap.find k' (StdMap.place k v m) = StdMap.find k' m.
Proof.
  intros Hne. induction m as [|[k0 v0] rest IH]; simpl.
  - destruct (k' =? k) eqn:E; [lia | reflexivity].
  - destruct (k <? k0); simpl.
    + destruct (k' =? k) eqn:E; [lia | reflexivity].
    + rewrite IH. reflexivity.
Qed.

Lemma find_replace_other {V} (k k' : idx_t) (v : V) (m : StdMap.t V) :
  k' <> k -> StdMap.find k' (StdMap.replace k v m) = StdMap.find k' m.
Proof.
  intros Hne. induction m as [|[k0 v0] rest IH]; simpl; [reflexivity|].
  destruct (k =? k0) eqn:E; simpl.
  - assert (k0 = k) by lia. subst k0.
    destruct (k' =? k) eqn:E2; [lia | reflexivity].
  - rewrite IH. reflexivity.
Qed.

Lemma find_assign_other {V} (k k' : idx_t) (v : V) (m : StdMap.t V) :
  k' <> k -> StdMap.find k' (StdMap.assign k v m) = StdMap.find k' m.
Proof.
  intros Hne. unfold StdMap.assign. destruct (StdMap.find k m).
  - apply find_replace_other. exact Hne.
  - apply find_place_other. exact Hne.
Qed.

(** X3. [AddBatchData] with a batch index that is not in the raw map returns
    normally, having only taken and released the registry lock; afterwards
    the index maps to the submitted collection, every other index maps to
    what it did before, the map is still in key order if it was, and the
    rest of the global state is unchanged. *)
Theorem AddBatchData_stores_collection
        (w : World) (k : idx_t) (c : ColumnDataCollection) :
  StdMap.find k (raw_batches (gstate w)) = None ->
  exists w',
    AddBatchData k c w = Done tt w' /\
    StdMap.find k (raw_batches (gstate w')) = Some c /\
    (forall k', k' <> k ->
                StdMap.find k' (raw_batches (gstate w'))
                = StdMap.find k' (raw_batches (gstate w))) /\
    (StdMap.ordered (raw_batches (gstate w)) -> StdMap.ordered (raw_batches (gstate w'))) /\
    gstate w' = set_raw_batches (raw_batches (gstate w')) (gstate w) /\
    events_since w w' = [Acquire m_lock; Release m_lock].
Proof.
  intros Hfree.
  pose proof (insert_ordered k c (raw_batches (gstate w))) as Hord.
  unfold AddBatchData, lock_guard, bind, emit, gets, modify, throw, ret.
  unfold StdMap.insert in *. simpl. rewrite Hfree in *. simpl in *.
  eexists. split; [reflexivity|]. simpl.
  split; [apply find_place; exact Hfree|].
  split; [intros k' Hne; apply find_place_other; exact Hne|].
  split; [exact Hord|].
  split; [reflexivity|].
  rewrite <- app_assoc. apply events_since_app.
Qed.

Lemma AddBatchData_stores_collection_witness :
  let w := mkWorld (mkGlobal 0 100 [(1, mkCollection [[1]%nat]); (5, mkCollection [[5]%nat])]
                             [] false) [] in
  exists w',
    AddBatchData 3 (mkCollection [[3]%nat]) w = Done tt w' /\
    StdMap.find 3 (raw_batches (gstate w')) = Some (mkCollection [[3]%nat]) /\
    (forall k', k' <> 3 ->
                StdMap.find k' (raw_batches (gstate w'))
                = StdMap.find k' (raw_batches (gstate w))) /\
    (StdMap.ordered (raw_batches (gstate w)) -> StdMap.ordered (raw_batches (gstate w'))) /\
    gstate w' = set_raw_batches (raw_batches (gstate w')) (gstate w) /\
    events_since w w' = [Acquire m_lock; Release m_lock].
Proof.
  intros w. apply (AddBatchData_stores_collection w 3 (mkCollection [[3]%nat])).
  reflexivity.
Defined.

(** X4. [PrepareBatchData] with a batch index that is not in the prepared map
    returns normally: it calls [prepare_batch] on the collection before it
    takes the registry lock, and afterwards the index maps to the prepared
    form, every other index maps to what it did before, the map is still in
    key order if it was, nothing has been written, and the rest of the
    global state is unchanged. *)
Theorem PrepareBatchData_stores_prepared_form
        (w : World) (k : idx_t) (c : ColumnDataCollection) :
  StdMap.find k (batch_data (gstate w)) = None ->
  exists w',
    PrepareBatchData k c w = Done tt w' /\
    StdMap.find k (batch_data (gstate w')) = Some (Some (prepare_batch c)) /\
    (forall k', k' <> k ->
                StdMap.find k' (batch_data (gstate w'))
                = StdMap.find k' (batch_data (gstate w))) /\
    (StdMap.ordered (batch_data (gstate w)) -> StdMap.ordered (batch_data (gstate w'))) /\
    gstate w' = set_batch_data (batch_data (gstate w')) (gstate w) /\
    events_since w w' = [Prepare c; Acquire m_lock; Release m_lock].
Proof.
  intros Hfree.
  pose proof (insert_ordered k (Some (prepare_batch c)) (batch_data (gstate w))) as Hord.
  unfold PrepareBatchData, lock_guard, bind, emit, gets, modify, throw, ret.
  unfold StdMap.insert in *. simpl. rewrite Hfree in *. simpl in *.
  eexists. split; [reflexivity|]. simpl.
  split; [apply find_place; exact Hfree|].
  split; [intros k' Hne; apply find_place_other; exact Hne|].
  split; [exact Hord|].
  split; [reflexivity|].
  repeat rewrite <- app_assoc. apply events_since_app.
Qed.

Lemma PrepareBatchData_stores_prepared_form_witness :
  let w := mkWorld (mkGlobal 0 0 [] [(7, None)] false) [] in
  let c := mkCollection [[3]%nat] in
  exists w',
    PrepareBatchData 3 c w = Done tt w' /\
    StdMap.find 3 (batch_data (gstate w')) = Some (Some (prepare_batch c)) /\
    (forall k', k' <> 3 ->
                StdMap.find k' (batch_data (gstate w'))
                = StdMap.find k' (batch_data (gstate w))) /\
    (StdMap.ordered (batch_data (gstate w)) -> StdMap.ordered (batch_data (gstate w'))) /\
    gstate w' = set_batch_data (batch_data (gstate w')) (gstate w) /\
    events_since w w' = [Prepare c; Acquire m_lock; Release m_lock].
Proof.
  intros w c. apply (PrepareBatchData_stores_prepared_form w 3 c). reflexivity.
Defined.

(** ** The size test and the two scans of a pass *)

(** X5. For sizes in the range of [int64_t] the casts of
    [CorrectSizeForBatch] lose nothing: the test holds exactly when the two
    sizes differ by less than [STANDARD_VECTOR_SIZE], and it is symmetric in
    its arguments. *)
Theorem CorrectSizeForBatch_in_range (vector_size collection_size desired_size : idx_t) :
  0 <= collection_size < 2 ^ 63 ->
  0 <= desired_size < 2 ^ 63 ->
  (CorrectSizeForBatch vector_size collection_size desired_size = true <->
   Z.abs (collection_size - desired_size) < vector_size) /\
  CorrectSizeForBatch vector_size collection_size desired_size
  = CorrectSizeForBatch vector_size desired_size collection_size.
Proof.
  intros Hc Hd.
  rewrite (CorrectSizeForBatch_spec vector_size desired_size collection_size Hc Hd).
  rewrite (CorrectSizeForBatch_spec vector_size collection_size desired_size Hd Hc).
  split; [lia|].
  f_equal. lia.
Qed.

Lemma CorrectSizeForBatch_in_range_witness :
  (CorrectSizeForBatch 2048 120000 122880 = true <-> Z.abs (120000 - 122880) < 2048) /\
  CorrectSizeForBatch 2048 120000 122880 = CorrectSizeForBatch 2048 122880 120000.
Proof.
  apply (CorrectSizeForBatch_in_range 2048 120000 122880); lia.
Defined.

Lemma rows_below_ordered_from (min_index : idx_t) (m : StdMap.t ColumnDataCollection) :
  forall lo, StdMap.ordered_from lo m -> min_index <= lo + 1 -> rows_below min_index m = 0.
Proof.
  induction m as [|[k c] rest IH]; simpl; intros lo Hord Hlo; [reflexivity|].
  destruct Hord as [Hk Hrest].
  assert ((k <? min_index) = false) as -> by lia.
  rewrite (IH k Hrest); lia.
Qed.

Lemma candidate_rows_scan_ordered_from (min_index : idx_t)
      (m : StdMap.t ColumnDataCollection) :
  forall lo acc,
    StdMap.ordered_from lo m -> 0 <= acc -> acc + rows_below min_index m < 2 ^ 64 ->
    candidate_rows_scan m min_index acc = acc + rows_below min_index m.
Proof.
  induction m as [|[k c] rest IH]; simpl; intros lo acc Hord Hacc Hsum; [lia|].
  destruct Hord as [Hk Hrest].
  pose proof (Count_nonneg c) as Hc.
  pose proof (rows_below_nonneg min_index rest) as Hr.
  destruct (k >=? min_index) eqn:E.
  - assert ((k <? min_index) = false) as Hlt by lia. rewrite Hlt in *.
    rewrite (rows_below_ordered_from min_index rest k Hrest); lia.
  - assert ((k <? min_index) = true) as Hlt by lia. rewrite Hlt in *.
    rewrite (IH k (idx_cast (acc + Count c)) Hrest).
    + rewrite idx_cast_small by lia. lia.
    + apply idx_cast_range.
    + rewrite idx_cast_small by lia. lia.
Qed.

(** X6. On a raw map in key order, and as long as the sum stays below 2^64,
    the first scan of a pass counts exactly the rows of the entries whose
    index is below [min_index]. *)
Theorem candidate_rows_scan_counts_rows_below
        (min_index : idx_t) (m : StdMap.t ColumnDataCollection) :
  StdMap.ordered m ->
  rows_below min_index m < 2 ^ 64 ->
  candidate_rows_scan m min_index 0 = rows_below min_index m.
Proof.
  intros Hord Hsum.
  destruct m as [|[k c] rest]; [reflexivity|].
  apply (candidate_rows_scan_ordered_from min_index ((k, c) :: rest) (k - 1) 0);
    [simpl; split; [lia | exact Hord] | lia | lia].
Qed.

Lemma candidate_rows_scan_counts_rows_below_witness :
  let m := [(0, mkCollection [[1; 2]%nat]); (3, mkCollection [[3]%nat]);
            (8, mkCollection [[4; 5; 6]%nat])] in
  candidate_rows_scan m 5 0 = rows_below 5 m.
Proof.
  intros m. apply (candidate_rows_scan_counts_rows_below 5 m).
  - simpl. lia.
  - vm_compute. reflexivity.
Defined.

Lemma ordered_from_all_above {V} (m : StdMap.t V) :
  forall lo, StdMap.ordered_from lo m -> Forall (fun e => lo < fst e) m.
Proof.
  induction m as [|[k v] rest IH]; simpl; intros lo Hord; [constructor|].
  destruct Hord as [Hk Hrest]. constructor; [exact Hk|].
  apply (Forall_impl _ (P := fun e => k < fst e)); [intros e He; lia | apply IH; exact Hrest].
Qed.

Lemma ordered_app_inv {V} (a : StdMap.t V) : forall (b : StdMap.t V),
  StdMap.ordered (a ++ b) -> StdMap.ordered b.
Proof.
  assert (Hfrom : forall (a b : StdMap.t V) lo,
             StdMap.ordered_from lo (a ++ b) -> StdMap.ordered b).
  { clear a. induction a as [|[k v] rest IH]; simpl; intros b lo H.
    - destruct b as [|[k v] b]; simpl in *; [exact I | tauto].
    - destruct H as [_ H]. exact (IH _ _ H). }
  intros b H. destruct a as [|[k v] rest]; simpl in H; [exact H|].
  exact (Hfrom _ _ _ H).
Qed.

Lemma ordered_app_cons_inv {V} (a : StdMap.t V) :
  forall k v (b : StdMap.t V),
    StdMap.ordered (a ++ (k, v) :: b) -> StdMap.ordered_from k b.
Proof.
  intros k v b H. apply ordered_app_inv in H. exact H.
Qed.

(** What is left by [gather] starts at or above [min_index]. *)
Lemma gather_remaining_head (min_index : idx_t) (raw : StdMap.t ColumnDataCollection) :
  forall mx cols mx' cols' remaining,
    gather raw min_index mx cols = (mx', cols', remaining) ->
    match remaining with
    | [] => True
    | (k, _) :: _ => min_index <= k
    end.
Proof.
  induction raw as [|[k c] rest IH]; intros mx cols mx' cols' remaining; simpl.
  - intros H. inversion H. exact I.
  - destruct (k >=? min_index) eqn:E.
    + intros H. inversion H. lia.
    + apply IH.
Qed.

(** X7. The second scan of a pass takes out of the raw map exactly its
    longest prefix of entries below [min_index]: the collections gathered
    are those of the prefix, in order; what is left starts at an index at or
    above [min_index] (and lies entirely at or above it when the map is in
    key order); and [max_batch_index] is the index of the last entry taken,
    without a value only when nothing was taken. *)
Theorem gather_takes_prefix_below
        (min_index : idx_t) (raw : StdMap.t ColumnDataCollection)
        (max_batch_index : option idx_t) (collections : list ColumnDataCollection)
        (remaining : StdMap.t ColumnDataCollection) :
  gather raw min_index None [] = (max_batch_index, collections, remaining) ->
  exists drained,
    raw = drained ++ remaining /\
    collections = map snd drained /\
    Forall (fun e => fst e < min_index) drained /\
    match remaining with [] => True | (k, _) :: _ => min_index <= k end /\
    (StdMap.ordered raw -> Forall (fun e => min_index <= fst e) remaining) /\
    ((drained = [] /\ max_batch_index = None) \/
     (exists front k c, drained = front ++ [(k, c)] /\ max_batch_index = Some k)).
Proof.
  intros Hg.
  destruct (gather_spec _ _ _ _ _ _ _ Hg) as (drained & Hraw & Hcols & Hmx & Hlt).
  pose proof (gather_remaining_head _ _ _ _ _ _ _ Hg) as Hhead.
  exists drained. repeat split; try assumption.
  - intros Hord. rewrite Hraw in Hord. apply ordered_app_inv in Hord.
    destruct remaining as [|[k v] rest]; [constructor|].
    constructor; [exact Hhead|].
    apply (Forall_impl _ (P := fun e => k < fst e)); [intros e He; lia|].
    apply ordered_from_all_above. exact Hord.
  - destruct drained as [|e d].
    + left. split; [reflexivity | exact Hmx].
    + right. assert (Hne : e :: d <> []) by discriminate.
      destruct (exists_last Hne) as (front & [k c] & Hlast).
      exists front, k, c. split; [exact Hlast|].
      rewrite Hmx, Hlast, fold_left_app. reflexivity.
Qed.

Lemma gather_takes_prefix_below_witness :
  let raw := [(0, mkCollection [[1]%nat]); (2, mkCollection [[2]%nat]);
              (5, mkCollection [[3]%nat])] in
  exists drained,
    raw = drained ++ [(5, mkCollection [[3]%nat])] /\
    [mkCollection [[1]%nat]; mkCollection [[2]%nat]] = map snd drained /\
    Forall (fun e => fst e < 4) drained /\
    4 <= 5 /\
    (StdMap.ordered raw -> Forall (fun e => 4 <= fst e) [(5, mkCollection [[3]%nat])]) /\
    ((drained = [] /\ Some 2 = None) \/
     (exists front k c, drained = front ++ [(k, c)] /\ Some 2 = Some k)).
Proof.
  intros raw.
  exact (gather_takes_prefix_below 4 raw (Some 2)
           [mkCollection [[1]%nat]; mkCollection [[2]%nat]]
           [(5, mkCollection [[3]%nat])] eq_refl).
Defined.

(** ** What a pass does to the raw map and to the row stream *)

Lemma flushed_of_pass_events (result : list ColumnDataCollection) :
  flushed_collections (Acquire m_lock :: prepare_flush_events result ++ [Release m_lock])
  = result.
Proof.
  change (flushed_collections ([Acquire m_lock] ++ prepare_flush_events result
                                  ++ [Release m_lock]) = result).
  rewrite !flushed_collections_app, flushed_of_prepare_flush_events.
  simpl. apply app_nil_r.
Qed.

Lemma raw_rows_app (a b : StdMap.t ColumnDataCollection) :
  raw_rows (a ++ b) = raw_rows a ++ raw_rows b.
Proof. unfold raw_rows. apply flat_map_app. Qed.

Lemma raw_rows_collections (m : StdMap.t ColumnDataCollection) :
  raw_rows m = flat_map Rows (map snd m).
Proof.
  unfold raw_rows. induction m as [|e m IH]; simpl; [reflexivity|]. rewrite IH. reflexivity.
Qed.

Lemma find_none_above {V} (k : idx_t) (m : StdMap.t V) :
  forall lo, StdMap.ordered_from lo m -> k <= lo -> StdMap.find k m = None.
Proof.
  induction m as [|[k' v'] rest IH]; simpl; intros lo Hord Hlo; [reflexivity|].
  destruct Hord as [Hk Hrest].
  destruct (k =? k') eqn:E; [lia|]. apply (IH k'); [exact Hrest | lia].
Qed.

(** Below all the keys, [m[k] = v] puts the entry first. *)
Lemma assign_front {V} (k : idx_t) (v : V) (m : StdMap.t V) :
  StdMap.ordered_from k m -> StdMap.assign k v m = (k, v) :: m.
Proof.
  intros Hord. unfold StdMap.assign.
  rewrite (find_none_above k m k Hord) by lia.
  destruct m as [|[k' v'] rest]; simpl; [reflexivity|].
  destruct Hord as [Hk _]. assert ((k <? k') = true) as -> by lia. reflexivity.
Qed.

Lemma find_app_below {V} (k min_index : idx_t) (a b : StdMap.t V) :
  Forall (fun e => fst e < min_index) a -> min_index <= k ->
  StdMap.find k (a ++ b) = StdMap.find k b.
Proof.
  intros Ha Hk. induction Ha as [|[k' v'] a Hlt Ha IH]; simpl; [reflexivity|].
  simpl in Hlt. destruct (k =? k') eqn:E; [lia | exact IH].
Qed.

Section RepartitionEffects.
Variable STANDARD_VECTOR_SIZE : idx_t.

(** X8. When the raw map is in key order and a pass returns normally, the rows
    the pass has written, followed by the rows still in the raw map, are the
    rows that were in the raw map before, in the same order; the pass wrote
    exactly what it prepared, and the raw map is in key order again. *)
Theorem repartition_conserves_row_stream
        (min_index : idx_t) (final : bool) (w w' : World) :
  StdMap.ordered (raw_batches (gstate w)) ->
  RepartitionBatches STANDARD_VECTOR_SIZE min_index final w = Done tt w' ->
  flat_map Rows (flushed_collections (events_since w w'))
    ++ raw_rows (raw_batches (gstate w'))
  = raw_rows (raw_batches (gstate w)) /\
  flushed_collections (events_since w w') = prepared_collections (events_since w w') /\
  StdMap.ordered (raw_batches (gstate w')).
Proof.
  intros Hord.
  rewrite RepartitionBatches_unfold. cbv zeta.
  assert (Hidle : forall w0,
            Done tt (mkWorld (gstate w)
                             (trace w ++ Acquire m_lock :: prepare_flush_events []
                                     ++ [Release m_lock])) = Done tt w0 ->
            flat_map Rows (flushed_collections (events_since w w0))
              ++ raw_rows (raw_batches (gstate w0))
            = raw_rows (raw_batches (gstate w)) /\
            flushed_collections (events_since w w0)
            = prepared_collections (events_since w w0) /\
            StdMap.ordered (raw_batches (gstate w0))).
  { intros w0 H. apply Done_world_inj in H. subst w0.
    rewrite events_since_app, flushed_of_pass_events, prepared_of_pass_events.
    simpl. auto. }
  destruct (raw_batches (gstate w)) as [|e rest] eqn:Eraw; [apply Hidle|].
  destruct (negb final && _); [apply Hidle|]. clear Hidle.
  destruct (gather (e :: rest) min_index None []) as [[mx cols] rem] eqn:Hg.
  destruct (gather_spec _ _ _ _ _ _ _ Hg) as (drained & Hraw & Hcols & _ & _).
  simpl in Hcols.
  pose proof (repartition_rows STANDARD_VECTOR_SIZE (batch_size (gstate w)) cols None [])
    as Hrows.
  destruct (repartition STANDARD_VECTOR_SIZE (batch_size (gstate w)) cols None [])
    as [[cur|] result] eqn:Hrep; [|discriminate].
  simpl in Hrows.
  assert (Hrem : StdMap.ordered rem).
  { rewrite Hraw in Hord. exact (ordered_app_inv _ _ Hord). }
  assert (Hall : raw_rows (e :: rest) = flat_map Rows cols ++ raw_rows rem).
  { rewrite Hraw at 1. rewrite raw_rows_app, raw_rows_collections, Hcols. reflexivity. }
  assert (Hemit : forall emitted w0,
            flat_map Rows emitted = flat_map Rows cols ->
            Done tt (mkWorld (set_raw_batches rem (gstate w))
                             (trace w ++ Acquire m_lock :: prepare_flush_events emitted
                                     ++ [Release m_lock])) = Done tt w0 ->
            flat_map Rows (flushed_collections (events_since w w0))
              ++ raw_rows (raw_batches (gstate w0))
            = raw_rows (e :: rest) /\
            flushed_collections (events_since w w0)
            = prepared_collections (events_since w w0) /\
            StdMap.ordered (raw_batches (gstate w0))).
  { intros emitted w0 Hem H. apply Done_world_inj in H. subst w0.
    rewrite events_since_app, flushed_of_pass_events, prepared_of_pass_events.
    cbn [gstate raw_batches set_raw_batches]. rewrite Hem, Hall. auto. }
  destruct (Count cur >? 0) eqn:Epos.
  - destruct (final || _).
    + apply Hemit. rewrite flat_map_app. simpl. rewrite app_nil_r. exact Hrows.
    + destruct mx as [k|]; [|discriminate].
      assert (Hcolsne : cols <> []).
      { intros ->. simpl in Hrep. discriminate. }
      destruct (gather_max_batch_index _ _ _ _ _ Hg Hcolsne)
        as (k0 & front & ck & Hk0 & Hsplit & _).
      inversion Hk0; subst k0; clear Hk0.
      assert (Hfrom : StdMap.ordered_from k rem).
      { rewrite Hsplit in Hord. exact (ordered_app_cons_inv _ _ _ _ Hord). }
      intros H. apply Done_world_inj in H. subst w'.
      rewrite events_since_app, flushed_of_pass_events, prepared_of_pass_events.
      cbn [gstate raw_batches set_raw_batches]. rewrite (assign_front k cur rem Hfrom).
      split; [|split; [reflexivity | exact Hfrom]].
      rewrite Hall, <- Hrows. unfold raw_rows at 1. simpl.
      rewrite <- app_assoc. reflexivity.
  - apply Hemit.
    assert (Hempty : Rows cur = []).
    { rewrite Z.gtb_ltb in Epos. apply Z.ltb_ge in Epos.
      pose proof (Count_nonneg cur) as H0.
      assert (Hz : Count cur = 0) by lia.
      unfold Count in Hz. destruct (Rows cur); [reflexivity | discriminate Hz]. }
    rewrite Hempty, app_nil_r in Hrows. exact Hrows.
Qed.

(** X10. However a pass ends, an index at or above [min_index] maps in the
    raw map to what it mapped to before the pass. *)
Theorem repartition_leaves_entries_at_or_above_watermark
        (min_index : idx_t) (final : bool) (w : World) (k : idx_t) :
  min_index <= k ->
  StdMap.find k (raw_batches
                   (gstate (world_of (RepartitionBatches STANDARD_VECTOR_SIZE
                                                         min_index final w))))
  = StdMap.find k (raw_batches (gstate w)).
Proof.
  intros Hk.
  rewrite RepartitionBatches_unfold. cbv zeta.
  destruct (raw_batches (gstate w)) as [|e rest] eqn:Eraw;
    [cbn [world_of gstate]; rewrite Eraw; reflexivity|].
  destruct (negb final && _); [cbn [world_of gstate]; rewrite Eraw; reflexivity|].
  destruct (gather (e :: rest) min_index None []) as [[mx cols] rem] eqn:Hg.
  destruct (gather_spec _ _ _ _ _ _ _ Hg) as (drained & Hraw & Hcols & Hmx & Hlt).
  assert (Hrem : StdMap.find k rem = StdMap.find k (e :: rest)).
  { rewrite Hraw. symmetry. apply (find_app_below k min_index); assumption. }
  destruct (repartition STANDARD_VECTOR_SIZE (batch_size (gstate w)) cols None [])
    as [[cur|] result] eqn:Hrep; [|exact Hrem].
  destruct (Count cur >? 0); [|exact Hrem].
  destruct (final || _); [exact Hrem|].
  destruct mx as [k0|]; [|exact Hrem].
  simpl. rewrite find_assign_other; [exact Hrem|].
  assert (Hcolsne : cols <> []).
  { intros ->. simpl in Hrep. discriminate. }
  destruct (gather_max_batch_index _ _ _ _ _ Hg Hcolsne) as (k1 & _ & _ & Hk1 & _ & Hlow).
  inversion Hk1; subst. lia.
Qed.

End RepartitionEffects.

Lemma repartition_conserves_row_stream_witness :
  exists w',
    RepartitionBatches 2 2 false two_raw_batches = Done tt w' /\
    flat_map Rows (flushed_collections (events_since two_raw_batches w'))
      ++ raw_rows (raw_batches (gstate w'))
    = [1; 2; 3; 4; 5]%nat /\
    StdMap.ordered (raw_batches (gstate w')).
Proof.
  assert (Hin : StdMap.ordered (raw_batches (gstate two_raw_batches))) by (simpl; lia).
  eexists. split; [vm_compute; reflexivity|].
  pose proof (repartition_conserves_row_stream 2 2 false two_raw_batches _ Hin eq_refl)
    as (Hrows & _ & Hord).
  split; [exact Hrows | exact Hord].
Defined.

Lemma repartition_leaves_entries_at_or_above_watermark_witness :
  let w := mkWorld (mkGlobal 0 2 [(0, mkCollection [[1]%nat]); (1, mkCollection [[2; 3]%nat]);
                                  (4, mkCollection [[4]%nat])] [] false) [] in
  StdMap.find 4 (raw_batches (gstate (world_of (RepartitionBatches 2048 2 false w))))
  = StdMap.find 4 (raw_batches (gstate w)).
Proof.
  intros w.
  apply (repartition_leaves_entries_at_or_above_watermark 2048 2 false w 4). lia.
Defined.

(** ** When a pass throws *)

Section RepartitionThrows.
Variable STANDARD_VECTOR_SIZE : idx_t.
Variable B : idx_t.

Lemma repartition_keeps_accumulator collections : forall cur result,
  fst (repartition STANDARD_VECTOR_SIZE B collections (Some cur) result) <> None.
Proof.
  induction collections as [|c rest IH]; intros cur result; simpl; [discriminate|].
  apply IH.
Qed.

Lemma repartition_without_accumulator collections : forall result,
  fst (repartition STANDARD_VECTOR_SIZE B collections None result) = None <->
  Forall (fun c => CorrectSizeForBatch STANDARD_VECTOR_SIZE (Count c) B = true) collections.
Proof.
  induction collections as [|c rest IH]; intros result; simpl.
  - split; [constructor | reflexivity].
  - destruct (CorrectSizeForBatch STANDARD_VECTOR_SIZE (Count c) B) eqn:E.
    + rewrite IH. split; [intros H; constructor; assumption|].
      intros H. inversion H; assumption.
    + split.
      * intros H. exfalso.
        destruct (Count c <? B); exact (repartition_keeps_accumulator _ _ _ H).
      * intros H. inversion H; subst. congruence.
Qed.

End RepartitionThrows.

Section RepartitionThrowsPass.
Variable STANDARD_VECTOR_SIZE : idx_t.

(** X9. The exception for the empty [current_collection] is thrown by a pass
    in exactly this case: the pass goes ahead (the raw map is not empty and,
    unless the pass is final, the candidate rows reach the target) and every
    collection it gathers, if any, passes [CorrectSizeForBatch], so that no
    accumulator was ever created.  It is thrown after the gathered entries
    have left the raw map and before anything is prepared or written.  And
    [max_batch_index] is never read without a value. *)
Theorem repartition_null_dereference_exactly_when_nothing_accumulates
        (min_index : idx_t) (final : bool) (w : World)
        (max_batch_index : option idx_t) (collections : list ColumnDataCollection)
        (remaining : StdMap.t ColumnDataCollection) :
  gather (raw_batches (gstate w)) min_index None []
  = (max_batch_index, collections, remaining) ->
  (forall w',
     RepartitionBatches STANDARD_VECTOR_SIZE min_index final w = Throw NullUniquePtr w' <->
     w' = mkWorld (set_raw_batches remaining (gstate w))
                  (trace w ++ [Acquire m_lock; Release m_lock]) /\
     raw_batches (gstate w) <> [] /\
     negb final && (candidate_rows_scan (raw_batches (gstate w)) min_index 0
                    <? batch_size (gstate w)) = false /\
     Forall (fun c => CorrectSizeForBatch STANDARD_VECTOR_SIZE (Count c)
                                          (batch_size (gstate w)) = true) collections) /\
  (forall w',
     RepartitionBatches STANDARD_VECTOR_SIZE min_index final w <> Throw IndeterminateValue w').
Proof.
  intros Hg.
  rewrite RepartitionBatches_unfold. cbv zeta.
  destruct (raw_batches (gstate w)) as [|e0 rest] eqn:Eraw.
  { split; intros w'; [|discriminate].
    split; [discriminate | intros (_ & H & _); congruence]. }
  destruct (negb final && _) eqn:Eguard.
  { split; intros w'; [|discriminate].
    split; [discriminate | intros (_ & _ & H & _); congruence]. }
  rewrite Hg.
  pose proof (repartition_without_accumulator STANDARD_VECTOR_SIZE (batch_size (gstate w))
                                              collections []) as Hnone.
  destruct (repartition STANDARD_VECTOR_SIZE (batch_size (gstate w)) collections None [])
    as [[cur|] result] eqn:Hrep; simpl in Hnone.
  - assert (Hno : ~ Forall (fun c => CorrectSizeForBatch STANDARD_VECTOR_SIZE (Count c)
                                       (batch_size (gstate w)) = true) collections).
    { intros H. apply Hnone in H. discriminate. }
    assert (Hcols : collections <> []).
    { intros ->. simpl in Hrep. discriminate. }
    destruct (gather_max_batch_index _ _ _ _ _ Hg Hcols) as (k & _ & _ & -> & _).
    split; intros w'.
    + split; [|intros (_ & _ & _ & H); contradiction].
      destruct (Count cur >? 0); [|discriminate].
      destruct (final || _); discriminate.
    + destruct (Count cur >? 0); [|discriminate].
      destruct (final || _); discriminate.
  - split; intros w'; [|discriminate].
    split.
    + intros H. inversion H; subst. repeat split; try discriminate.
      apply Hnone. reflexivity.
    + intros (-> & _). reflexivity.
Qed.

End RepartitionThrowsPass.

Lemma repartition_null_dereference_exactly_when_nothing_accumulates_witness :
  let five (n : nat) := mkCollection [[n; n; n; n; n]] in
  let w := mkWorld (mkGlobal 0 10 [(0, five 1%nat); (1, five 2%nat)] [] false) [] in
  RepartitionBatches 2048 2 false w
  = Throw NullUniquePtr (mkWorld (mkGlobal 0 10 [] [] false)
                                 [Acquire m_lock; Release m_lock]).
Proof.
  intros five w.
  apply (proj2 (proj1 (repartition_null_dereference_exactly_when_nothing_accumulates
                         2048 2 false w (Some 1) [five 1%nat; five 2%nat] [] eq_refl) _)).
  split; [reflexivity|]. split; [discriminate|].
  split; [reflexivity|].
  repeat constructor.
Defined.

(** ** The two modes of the operator *)

Lemma invariant_bind {A B} (P : BatchCopyToGlobalState -> Prop) (m : M A) (k : A -> M B) :
  (forall w, P (gstate w) -> P (gstate (world_of (m w)))) ->
  (forall a w, P (gstate w) -> P (gstate (world_of (k a w)))) ->
  forall w, P (gstate w) -> P (gstate (world_of (bind m k w))).
Proof.
  intros Hm Hk w HP. unfold bind. specialize (Hm w HP).
  destruct (m w) as [a w1|e w1]; simpl in *; [apply Hk; exact Hm | exact Hm].
Qed.

Lemma invariant_of_keeps {A X Y} (f : BatchCopyToGlobalState -> X)
      (h : BatchCopyToGlobalState -> Y) (x : X) (y : Y) (m : M A) :
  keeps f m -> keeps h m ->
  forall w, f (gstate w) = x /\ h (gstate w) = y ->
            f (gstate (world_of (m w))) = x /\ h (gstate (world_of (m w))) = y.
Proof.
  intros Hf Hh w [H1 H2]. rewrite (Hf w), (Hh w). split; assumption.
Qed.

(** The global state after a flush differs from the one before in the
    prepared map and the flag at most, and an empty prepared map stays
    empty. *)
Lemma FlushBatchData_gstate (min_index : idx_t) (w : World) :
  exists bd b,
    gstate (world_of (FlushBatchData min_index w))
    = set_active_flush b (set_batch_data bd (gstate w)) /\
    (batch_data (gstate w) = [] -> bd = []).
Proof.
  destruct (active_flush (gstate w)) eqn:Hflag.
  - rewrite (FlushBatchData_flag_set _ _ Hflag).
    exists (batch_data (gstate w)), true. split; [|auto].
    simpl. destruct (gstate w). simpl in *. subst. reflexivity.
  - destruct (FlushBatchData_run min_index w Hflag) as (evs & Hrun & _).
    rewrite Hrun. eexists. exists true. split; [reflexivity|].
    intros ->. reflexivity.
Qed.

Lemma FlushBatchData_keeps_batch_size min_index : keeps batch_size (FlushBatchData min_index).
Proof.
  intros w. destruct (FlushBatchData_gstate min_index w) as (bd & b & -> & _). reflexivity.
Qed.

Lemma FlushBatchData_keeps_raw_batches min_index : keeps raw_batches (FlushBatchData min_index).
Proof.
  intros w. destruct (FlushBatchData_gstate min_index w) as (bd & b & -> & _). reflexivity.
Qed.

Lemma AddBatchData_keeps_batch_size k c : keeps batch_size (AddBatchData k c).
Proof. unfold AddBatchData. frame. Qed.

Lemma PrepareBatchData_keeps_batch_size k c : keeps batch_size (PrepareBatchData k c).
Proof. unfold PrepareBatchData. frame. Qed.

Section Modes.
Variable STANDARD_VECTOR_SIZE : idx_t.

(** A batch transition, by mode. *)
Lemma NextBatch_unsized info l c w :
  collection l = Some c -> batch_size (gstate w) = 0 ->
  NextBatch STANDARD_VECTOR_SIZE info l w
  = ((PrepareBatchData (batch_index l) c ;; FlushBatchData (min_batch_index info)) ;;
     ret (mkLocal (Some empty_collection) (local_rows_copied l) (next_batch_index info))) w.
Proof.
  intros Hc Hb. unfold NextBatch. rewrite Hc. unfold bind, gets. rewrite Hb. reflexivity.
Qed.

Lemma NextBatch_sized info l c w :
  collection l = Some c -> batch_size (gstate w) <> 0 ->
  NextBatch STANDARD_VECTOR_SIZE info l w
  = (((AddBatchData (batch_index l) c ;;
       RepartitionBatches STANDARD_VECTOR_SIZE (min_batch_index info) false) ;;
      FlushBatchData (min_batch_index info)) ;;
     ret (mkLocal (Some empty_collection) (local_rows_copied l) (next_batch_index info))) w.
Proof.
  intros Hc Hb. unfold NextBatch. rewrite Hc. unfold bind, gets.
  destruct (batch_size (gstate w) =? 0) eqn:E; [lia | reflexivity].
Qed.

Lemma unsized_mode_kept_by_NextBatch info l w :
  batch_size (gstate w) = 0 /\ raw_batches (gstate w) = [] ->
  batch_size (gstate (world_of (NextBatch STANDARD_VECTOR_SIZE info l w))) = 0 /\
  raw_batches (gstate (world_of (NextBatch STANDARD_VECTOR_SIZE info l w))) = [].
Proof.
  intros HP. destruct (collection l) as [c|] eqn:Hc.
  - rewrite (NextBatch_unsized info l c w Hc (proj1 HP)).
    revert w HP. apply (invariant_bind (fun g => batch_size g = 0 /\ raw_batches g = [])); [|intros a w H; exact H].
    apply (invariant_bind (fun g => batch_size g = 0 /\ raw_batches g = [])); [|intros _].
    + apply invariant_of_keeps;
        [apply PrepareBatchData_keeps_batch_size | apply PrepareBatchData_keeps_raw_batches].
    + apply invariant_of_keeps;
        [apply FlushBatchData_keeps_batch_size | apply FlushBatchData_keeps_raw_batches].
  - unfold NextBatch. rewrite Hc. exact HP.
Qed.

Lemma sized_mode_kept_by_FlushBatchData min_index (b : idx_t) w :
  batch_size (gstate w) = b /\ batch_data (gstate w) = [] ->
  batch_size (gstate (world_of (FlushBatchData min_index w))) = b /\
  batch_data (gstate (world_of (FlushBatchData min_index w))) = [].
Proof.
  intros [Hb Hbd].
  destruct (FlushBatchData_gstate min_index w) as (bd & f & -> & Hempty).
  simpl. rewrite (Hempty Hbd). auto.
Qed.

Lemma sized_mode_kept_by_NextBatch info l (b : idx_t) w :
  b <> 0 ->
  batch_size (gstate w) = b /\ batch_data (gstate w) = [] ->
  batch_size (gstate (world_of (NextBatch STANDARD_VECTOR_SIZE info l w))) = b /\
  batch_data (gstate (world_of (NextBatch STANDARD_VECTOR_SIZE info l w))) = [].
Proof.
  intros Hnz HP. destruct (collection l) as [c|] eqn:Hc.
  - assert (Hb : batch_size (gstate w) <> 0) by (destruct HP; congruence).
    rewrite (NextBatch_sized info l c w Hc Hb). clear Hb.
    revert w HP.
    apply (invariant_bind (fun g => batch_size g = b /\ batch_data g = [])); [|intros a w H; exact H].
    apply (invariant_bind (fun g => batch_size g = b /\ batch_data g = [])); [apply (invariant_bind (fun g => batch_size g = b /\ batch_data g = [])); [|intros _] | intros _].
    + apply invariant_of_keeps;
        [apply AddBatchData_keeps_batch_size | apply AddBatchData_keeps_batch_data].
    + apply invariant_of_keeps;
        [apply RepartitionBatches_keeps_batch_size | apply RepartitionBatches_keeps_batch_data].
    + apply sized_mode_kept_by_FlushBatchData.
  - unfold NextBatch. rewrite Hc. exact HP.
Qed.

Lemma Finalize_eq w :
  Finalize STANDARD_VECTOR_SIZE w
  = bind (match raw_batches (gstate w) with
          | [] => ret tt
          | _ :: _ => RepartitionBatches STANDARD_VECTOR_SIZE (idx_cast INT64_MAX) true
          end)
         (fun _ => FlushBatchData (idx_cast INT64_MAX)) w.
Proof. reflexivity. Qed.

Lemma unsized_mode_kept_by_Finalize w :
  batch_size (gstate w) = 0 /\ raw_batches (gstate w) = [] ->
  batch_size (gstate (world_of (Finalize STANDARD_VECTOR_SIZE w))) = 0 /\
  raw_batches (gstate (world_of (Finalize STANDARD_VECTOR_SIZE w))) = [].
Proof.
  intros HP. rewrite Finalize_eq, (proj2 HP). revert w HP.
  apply (invariant_bind (fun g => batch_size g = 0 /\ raw_batches g = []));
    [intros w H; exact H | intros _].
  apply invariant_of_keeps;
    [apply FlushBatchData_keeps_batch_size | apply FlushBatchData_keeps_raw_batches].
Qed.

Lemma sized_mode_kept_by_Finalize (b : idx_t) w :
  batch_size (gstate w) = b /\ batch_data (gstate w) = [] ->
  batch_size (gstate (world_of (Finalize STANDARD_VECTOR_SIZE w))) = b /\
  batch_data (gstate (world_of (Finalize STANDARD_VECTOR_SIZE w))) = [].
Proof.
  intros HP. rewrite Finalize_eq.
  destruct (raw_batches (gstate w)); revert w HP;
    (apply (invariant_bind (fun g => batch_size g = b /\ batch_data g = []));
     [|intros _; apply sized_mode_kept_by_FlushBatchData]).
  - intros w H. exact H.
  - apply invariant_of_keeps;
      [apply RepartitionBatches_keeps_batch_size | apply RepartitionBatches_keeps_batch_data].
Qed.

(** X11. The raw map is in use only with a target batch size and the
    prepared map only without one: if the global state has an empty raw map
    when the target batch size is 0 and an empty prepared map otherwise (as
    the initial state has), then so it has after a batch transition, after
    [Combine] and after [Finalize], however the call ends; the target batch
    size itself never changes. *)
Theorem mode_separation_is_kept
        (info : PartitionInfo) (l : BatchCopyToLocalState) (w : World) :
  mode_separated (gstate w) ->
  let after_next := gstate (world_of (NextBatch STANDARD_VECTOR_SIZE info l w)) in
  let after_combine := gstate (world_of (Combine l w)) in
  let after_finalize := gstate (world_of (Finalize STANDARD_VECTOR_SIZE w)) in
  (mode_separated after_next /\ batch_size after_next = batch_size (gstate w)) /\
  (mode_separated after_combine /\ batch_size after_combine = batch_size (gstate w)) /\
  (mode_separated after_finalize /\ batch_size after_finalize = batch_size (gstate w)).
Proof.
  intros [H0 Hnz]. cbv zeta.
  assert (Hcase : forall g',
            (batch_size (gstate w) = 0 -> batch_size g' = 0 /\ raw_batches g' = []) ->
            (batch_size (gstate w) <> 0 ->
             batch_size g' = batch_size (gstate w) /\ batch_data g' = []) ->
            mode_separated g' /\ batch_size g' = batch_size (gstate w)).
  { intros g' Hz Hn. destruct (Z.eq_dec (batch_size (gstate w)) 0) as [E|E].
    - destruct (Hz E) as [Hb Hr]. split; [|congruence].
      split; [auto | intros; congruence].
    - destruct (Hn E) as [Hb Hd]. split; [|exact Hb].
      split; [intros; congruence | auto]. }
  split; [|split]; apply Hcase.
  - intros E. apply unsized_mode_kept_by_NextBatch. auto.
  - intros E. apply sized_mode_kept_by_NextBatch; auto.
  - intros E. simpl. auto.
  - intros E. simpl. auto.
  - intros E. apply unsized_mode_kept_by_Finalize. auto.
  - intros E. apply sized_mode_kept_by_Finalize. auto.
Qed.

End Modes.

Lemma mode_separation_is_kept_witness :
  let after_next :=
    gstate (world_of (NextBatch 2048 (mkPartitionInfo 1 1)
                                (mkLocal (Some (mkCollection [[1]%nat])) 1 0)
                                (initial_world 0))) in
  mode_separated (GetGlobalSinkState 0) /\
  mode_separated after_next /\ batch_size after_next = 0.
Proof.
  assert (H : mode_separated (gstate (initial_world 0))).
  { split; [reflexivity | intros Hne; exfalso; apply Hne; reflexivity]. }
  split; [exact H|].
  exact (proj1 (mode_separation_is_kept 2048 (mkPartitionInfo 1 1)
                  (mkLocal (Some (mkCollection [[1]%nat])) 1 0) (initial_world 0) H)).
Defined.

(** ** Combining local states *)

(** X12. Two [Combine] calls commute: in either order they return normally,
    leave the global counter at the sum (modulo 2^64) of its old value and
    the two local counters, and change nothing else, the trace included. *)
Theorem Combine_commutes (l1 l2 : BatchCopyToLocalState) (w : World) :
  (Combine l1 ;; Combine l2) w = (Combine l2 ;; Combine l1) w /\
  (Combine l1 ;; Combine l2) w
  = Done tt (mkWorld
               (set_rows_copied
                  (idx_cast (rows_copied (gstate w)
                             + local_rows_copied l1 + local_rows_copied l2))
                  (gstate w))
               (trace w)).
Proof.
  assert (H : forall a b,
            (Combine a ;; Combine b) w
            = Done tt (mkWorld
                         (set_rows_copied
                            (idx_cast (rows_copied (gstate w)
                                       + local_rows_copied a + local_rows_copied b))
                            (gstate w))
                         (trace w))).
  { intros a b. unfold Combine, bind, modify. simpl.
    rewrite idx_cast_add_l. reflexivity. }
  split; [|apply H].
  rewrite (H l1 l2), (H l2 l1).
  replace (rows_copied (gstate w) + local_rows_copied l2 + local_rows_copied l1)
    with (rows_copied (gstate w) + local_rows_copied l1 + local_rows_copied l2) by lia.
  reflexivity.
Qed.

(** ** Finalize *)


Section FinalizeDrains.
Variable STANDARD_VECTOR_SIZE : idx_t.


End FinalizeDrains.


(** ** Batch transitions with a batch index that is taken *)

Section TransitionFails.
Variable STANDARD_VECTOR_SIZE : idx_t.

(** X16. A batch transition of a local state whose batch index is already in
    the map it submits to throws the duplicate-index exception and leaves the
    global state unchanged: with a target batch size the call has only taken
    and released the registry lock (no repartition pass, no flush); without
    one, [prepare_batch] has already been called on the collection when the
    duplicate is found. *)
Theorem NextBatch_stops_at_duplicate_index
        (info : PartitionInfo) (l : BatchCopyToLocalState) (c : ColumnDataCollection)
        (w : World) :
  collection l = Some c ->
  (batch_size (gstate w) <> 0 ->
   StdMap.find (batch_index l) (raw_batches (gstate w)) <> None ->
   NextBatch STANDARD_VECTOR_SIZE info l w
   = Throw (DuplicateBatchIndex (batch_index l))
           (mkWorld (gstate w) (trace w ++ [Acquire m_lock; Release m_lock]))) /\
  (batch_size (gstate w) = 0 ->
   StdMap.find (batch_index l) (batch_data (gstate w)) <> None ->
   NextBatch STANDARD_VECTOR_SIZE info l w
   = Throw (DuplicateBatchIndex (batch_index l))
           (mkWorld (gstate w) (trace w ++ [Prepare c; Acquire m_lock; Release m_lock]))).
Proof.
  intros Hc. split.
  - intros Hb Hfind. rewrite (NextBatch_sized _ info l c w Hc Hb).
    assert (Hadd : AddBatchData (batch_index l) c w
                   = Throw (DuplicateBatchIndex (batch_index l))
                           (mkWorld (gstate w) (trace w ++ [Acquire m_lock; Release m_lock]))).
    { unfold AddBatchData, lock_guard, bind, emit, gets, modify, throw, ret, StdMap.insert.
      simpl. destruct (StdMap.find (batch_index l) (raw_batches (gstate w))); [|congruence].
      simpl. rewrite set_raw_batches_same, <- app_assoc. reflexivity. }
    unfold bind. rewrite Hadd. reflexivity.
  - intros Hb Hfind. rewrite (NextBatch_unsized _ info l c w Hc Hb).
    assert (Hprep : PrepareBatchData (batch_index l) c w
                    = Throw (DuplicateBatchIndex (batch_index l))
                            (mkWorld (gstate w)
                                     (trace w ++ [Prepare c; Acquire m_lock; Release m_lock]))).
    { unfold PrepareBatchData, lock_guard, bind, emit, gets, modify, throw, ret, StdMap.insert.
      simpl. destruct (StdMap.find (batch_index l) (batch_data (gstate w))); [|congruence].
      simpl. rewrite set_batch_data_same. repeat rewrite <- app_assoc. reflexivity. }
    unfold bind. rewrite Hprep. reflexivity.
Qed.

End TransitionFails.

Lemma NextBatch_stops_at_duplicate_index_witness :
  let c := mkCollection [[9]%nat] in
  let l := mkLocal (Some c) 1 3 in
  let sized := mkWorld (mkGlobal 0 100 [(3, mkCollection [[1]%nat])] [] false) [] in
  let unsized := mkWorld (mkGlobal 0 0 [] [(3, None)] false) [] in
  NextBatch 2048 (mkPartitionInfo 4 4) l sized
  = Throw (DuplicateBatchIndex 3)
          (mkWorld (gstate sized) [Acquire m_lock; Release m_lock]) /\
  NextBatch 2048 (mkPartitionInfo 4 4) l unsized
  = Throw (DuplicateBatchIndex 3)
          (mkWorld (gstate unsized) [Prepare c; Acquire m_lock; Release m_lock]).
Proof.
  intros c l sized unsized. split.
  - apply (proj1 (NextBatch_stops_at_duplicate_index 2048 (mkPartitionInfo 4 4) l c sized
                    eq_refl)); discriminate.
  - apply (proj2 (NextBatch_stops_at_duplicate_index 2048 (mkPartitionInfo 4 4) l c unsized
                    eq_refl)); [reflexivity | discriminate].
Defined.

(** ** Finalize with a target batch size *)

Lemma gather_all_below (min_index : idx_t) (raw : StdMap.t ColumnDataCollection) :
  all_below min_index raw = true ->
  forall mx cols,
    gather raw min_index mx cols
    = (fold_left (fun _ e => Some (fst e)) raw mx, cols ++ map snd raw, []).
Proof.
  unfold all_below.
  induction raw as [|[k c] rest IH]; simpl; intros H mx cols.
  - rewrite app_nil_r. reflexivity.
  - apply andb_true_iff in H. destruct H as [Hk Hrest].
    assert ((k >=? min_index) = false) as -> by lia.
    rewrite (IH Hrest), <- app_assoc. reflexivity.
Qed.

(** A flush on an empty prepared map writes nothing. *)
Lemma FlushBatchData_on_empty (min_index : idx_t) (w : World) :
  batch_data (gstate w) = [] ->
  exists evs w',
    FlushBatchData min_index w = Done tt w' /\
    trace w' = trace w ++ evs /\
    flushed_collections evs = [] /\
    prepared_collections evs = [] /\
    batch_data (gstate w') = [] /\
    raw_batches (gstate w') = raw_batches (gstate w).
Proof.
  intros Hbd. destruct (active_flush (gstate w)) eqn:Hflag.
  - exists [], w. rewrite (FlushBatchData_flag_set _ _ Hflag), app_nil_r.
    repeat split; assumption.
  - destruct (FlushBatchData_run min_index w Hflag) as (evs & Hrun & Hf & Hp & _).
    rewrite Hbd in Hrun, Hf. simpl in Hrun, Hf.
    exists evs. eexists. split; [exact Hrun|]. simpl. repeat split; assumption.
Qed.

Section FinalizeSized.
Variable STANDARD_VECTOR_SIZE : idx_t.

(** A final pass over a raw map that lies entirely below [min_index]. *)
Lemma final_pass_all_below (min_index : idx_t) (w w1 : World) :
  all_below min_index (raw_batches (gstate w)) = true ->
  RepartitionBatches STANDARD_VECTOR_SIZE min_index true w = Done tt w1 ->
  raw_batches (gstate w1) = [] /\
  batch_data (gstate w1) = batch_data (gstate w) /\
  exists emitted,
    trace w1 = trace w ++ Acquire m_lock :: prepare_flush_events emitted ++ [Release m_lock] /\
    flat_map Rows emitted = raw_rows (raw_batches (gstate w)).
Proof.
  intros Hbelow.
  rewrite RepartitionBatches_unfold. cbv zeta.
  destruct (raw_batches (gstate w)) as [|e rest] eqn:Eraw.
  { intros H. apply Done_world_inj in H. subst w1. simpl.
    rewrite Eraw. repeat split. exists []. split; reflexivity. }
  cbn [negb andb].
  rewrite (gather_all_below min_index (e :: rest) Hbelow None []).
  assert (Hrows :
            flat_map Rows (snd (repartition STANDARD_VECTOR_SIZE (batch_size (gstate w))
                                            ([] ++ map snd (e :: rest)) None []))
              ++ accumulator_rows
                   (fst (repartition STANDARD_VECTOR_SIZE (batch_size (gstate w))
                                     ([] ++ map snd (e :: rest)) None []))
            = raw_rows (e :: rest)).
  { rewrite raw_rows_collections.
    exact (repartition_rows STANDARD_VECTOR_SIZE (batch_size (gstate w))
                            ([] ++ map snd (e :: rest)) None []). }
  remember (raw_rows (e :: rest)) as all_rows eqn:Eall. clear Eall.
  destruct (repartition STANDARD_VECTOR_SIZE (batch_size (gstate w))
                        ([] ++ map snd (e :: rest)) None [])
    as [[cur|] result]; [|discriminate].
  simpl in Hrows.
  destruct (Count cur >? 0) eqn:Epos; cbn [orb].
  - intros H. apply Done_world_inj in H. subst w1. simpl.
    repeat split. exists (result ++ [cur]). split; [reflexivity|].
    rewrite flat_map_app. simpl. rewrite app_nil_r. exact Hrows.
  - intros H. apply Done_world_inj in H. subst w1. simpl.
    repeat split. exists result. split; [reflexivity|].
    assert (Hempty : Rows cur = []).
    { rewrite Z.gtb_ltb in Epos. apply Z.ltb_ge in Epos.
      pose proof (Count_nonneg cur) as H0.
      assert (Hz : Count cur = 0) by lia.
      unfold Count in Hz. destruct (Rows cur); [reflexivity | discriminate Hz]. }
    rewrite Hempty, app_nil_r in Hrows. exact Hrows.
Qed.

(** X14. With an empty prepared map (as in the mode with a target batch size)
    and every raw index below the largest [int64_t], a [Finalize] that
    returns normally leaves both maps empty and has passed to [flush_batch]
    exactly the rows of the raw map, in map order; everything it wrote it
    had prepared itself. *)
Theorem Finalize_drains_raw_map (w w' : World) :
  batch_data (gstate w) = [] ->
  all_below (idx_cast INT64_MAX) (raw_batches (gstate w)) = true ->
  Finalize STANDARD_VECTOR_SIZE w = Done tt w' ->
  raw_batches (gstate w') = [] /\
  batch_data (gstate w') = [] /\
  flat_map Rows (flushed_collections (events_since w w'))
  = raw_rows (raw_batches (gstate w)) /\
  flushed_collections (events_since w w') = prepared_collections (events_since w w').
Proof.
  intros Hbd Hbelow. rewrite Finalize_eq.
  destruct (raw_batches (gstate w)) as [|e rest] eqn:Eraw.
  - unfold bind, ret.
    destruct (FlushBatchData_on_empty (idx_cast INT64_MAX) w Hbd)
      as (evs & w2 & Hrun & Htr & Hf & Hp & Hbd2 & Hraw2).
    rewrite Hrun. intros H. apply Done_world_inj in H. subst w2.
    rewrite (events_since_eq _ _ _ Htr), Hf, Hp, Hraw2, Eraw. auto.
  - unfold bind.
    destruct (RepartitionBatches STANDARD_VECTOR_SIZE (idx_cast INT64_MAX) true w)
      as [[] w1|ex w1] eqn:Hpass; [|discriminate].
    rewrite <- Eraw in Hbelow.
    destruct (final_pass_all_below _ _ _ Hbelow Hpass)
      as (Hraw1 & Hbd1 & emitted & Htr1 & Hrows).
    rewrite Hbd in Hbd1.
    destruct (FlushBatchData_on_empty (idx_cast INT64_MAX) w1 Hbd1)
      as (evs & w2 & Hrun & Htr & Hf & Hp & Hbd2 & Hraw2).
    rewrite Hrun. intros H. apply Done_world_inj in H. subst w2.
    assert (Hevs : events_since w w'
                   = (Acquire m_lock :: prepare_flush_events emitted ++ [Release m_lock])
                       ++ evs).
    { apply events_since_eq. rewrite Htr, Htr1, <- app_assoc. reflexivity. }
    rewrite Hevs, flushed_collections_app, prepared_collections_app.
    rewrite flushed_of_pass_events, prepared_of_pass_events, Hf, Hp, app_nil_r.
    rewrite Hraw2, Hraw1, <- Eraw. auto.
Qed.

End FinalizeSized.

Lemma Finalize_drains_raw_map_witness :
  let w := mkWorld (mkGlobal 5 5000 [(0, mkCollection [[1; 2]%nat]);
                                     (3, mkCollection [[3]%nat; [4; 5]%nat])] [] true) [] in
  exists w',
    Finalize 2048 w = Done tt w' /\
    raw_batches (gstate w') = [] /\
    batch_data (gstate w') = [] /\
    flat_map Rows (flushed_collections (events_since w w')) = [1; 2; 3; 4; 5]%nat.
Proof.
  intros w. eexists. split; [vm_compute; reflexivity|].
  pose proof (Finalize_drains_raw_map 2048 w _ eq_refl eq_refl eq_refl)
    as (Hraw & Hbd & Hrows & _).
  split; [exact Hraw|]. split; [exact Hbd | exact Hrows].
Defined.

(** ** What a local state hands off *)

Lemma collection_Sink (chunk : DataChunk) (l : BatchCopyToLocalState) :
  collection (Sink chunk l)
  = Some (Append match collection l with
                 | Some c => c
                 | None => empty_collection
                 end chunk).
Proof.
  unfold Sink. destruct (collection l) eqn:E; simpl; rewrite ?E; reflexivity.
Qed.

Lemma Sink_all (chunks : list DataChunk) : forall l,
  chunks <> [] \/ collection l <> None ->
  exists c,
    collection (fold_left (fun l chunk => Sink chunk l) chunks l) = Some c /\
    Rows c = accumulator_rows (collection l) ++ concat chunks /\
    batch_index (fold_left (fun l chunk => Sink chunk l) chunks l) = batch_index l /\
    idx_cast (local_rows_copied (fold_left (fun l chunk => Sink chunk l) chunks l))
    = idx_cast (local_rows_copied l + total_rows chunks).
Proof.
  induction chunks as [|chunk rest IH]; intros l Hown.
  - destruct Hown as [H|H]; [congruence|].
    destruct (collection l) as [c|] eqn:Hc; [|congruence].
    exists c. simpl. rewrite Hc, app_nil_r. unfold total_rows. simpl.
    rewrite Z.add_0_r. repeat split.
  - destruct (IH (Sink chunk l)) as (c & Hcol & Hrows & Hidx & Hcount).
    { right. rewrite collection_Sink. discriminate. }
    exists c. simpl. split; [exact Hcol|].
    split; [|split].
    + rewrite Hrows, collection_Sink. simpl. rewrite Rows_Append, <- app_assoc.
      destruct (collection l); reflexivity.
    + rewrite Hidx. unfold Sink. destruct (collection l); reflexivity.
    + rewrite Hcount.
      assert (Hsink : local_rows_copied (Sink chunk l)
                      = idx_cast (local_rows_copied l + chunk_size chunk)).
      { unfold Sink. destruct (collection l); reflexivity. }
      rewrite Hsink, idx_cast_add_l. f_equal. unfold total_rows. simpl. lia.
Qed.

Section HandOff.
Variable STANDARD_VECTOR_SIZE : idx_t.

(** Without a target batch size, the first thing a batch transition does is
    to call [prepare_batch] on the local collection. *)
Lemma NextBatch_unsized_prepares_first info l c w :
  collection l = Some c -> batch_size (gstate w) = 0 ->
  exists rest,
    trace (world_of (NextBatch STANDARD_VECTOR_SIZE info l w)) = trace w ++ Prepare c :: rest.
Proof.
  intros Hc Hb. rewrite (NextBatch_unsized _ info l c w Hc Hb).
  set (after :=
         ((lock_guard m_lock
             (bd <- gets batch_data ;;
              let entry := StdMap.insert (batch_index l) (Some (prepare_batch c)) bd in
              modify (set_batch_data (fst entry)) ;;
              if negb (snd entry) then throw (DuplicateBatchIndex (batch_index l))
              else ret tt) ;;
           FlushBatchData (min_batch_index info)) ;;
          ret (mkLocal (Some empty_collection) (local_rows_copied l)
                       (next_batch_index info)))).
  assert (Hafter : extends after).
  { unfold after. apply extends_bind; [|intros ?; apply extends_ret].
    apply extends_bind; [grows | intros ?; apply FlushBatchData_extends]. }
  destruct (Hafter (mkWorld (gstate w) (trace w ++ [Prepare c]))) as [evs Hevs].
  exists evs. simpl in Hevs. rewrite <- app_assoc in Hevs. exact Hevs.
Qed.

(** X15. A local state that owns a collection, or is given at least one
    chunk, owns after a sequence of [Sink] calls a collection whose rows are
    those it held before followed by the rows of the chunks, in order; its
    batch index is unchanged and its row counter has advanced, modulo 2^64,
    by the summed size of the chunks.  Without a target batch size, the next
    batch transition starts by calling [prepare_batch] on exactly that
    collection. *)
Theorem sunk_rows_are_handed_off
        (info : PartitionInfo) (l : BatchCopyToLocalState) (chunks : list DataChunk)
        (w : World) :
  chunks <> [] \/ collection l <> None ->
  let l' := fold_left (fun l chunk => Sink chunk l) chunks l in
  exists c,
    collection l' = Some c /\
    Rows c = accumulator_rows (collection l) ++ concat chunks /\
    batch_index l' = batch_index l /\
    idx_cast (local_rows_copied l') = idx_cast (local_rows_copied l + total_rows chunks) /\
    (batch_size (gstate w) = 0 ->
     exists rest,
       trace (world_of (NextBatch STANDARD_VECTOR_SIZE info l' w))
       = trace w ++ Prepare c :: rest).
Proof.
  intros Hown l'.
  destruct (Sink_all chunks l Hown) as (c & Hcol & Hrows & Hidx & Hcount).
  exists c. repeat split; try assumption.
  intros Hb. apply NextBatch_unsized_prepares_first; assumption.
Qed.

End HandOff.

Lemma sunk_rows_are_handed_off_witness :
  let l := mkLocal (Some empty_collection) 7 4 in
  let l' := fold_left (fun l chunk => Sink chunk l) [[1; 2]%nat; [3]%nat] l in
  exists c,
    collection l' = Some c /\
    Rows c = [1; 2; 3]%nat /\
    batch_index l' = 4 /\
    idx_cast (local_rows_copied l') = idx_cast (7 + 3) /\
    (batch_size (gstate (initial_world 0)) = 0 ->
     exists rest,
       trace (world_of (NextBatch 2048 (mkPartitionInfo 5 5) l' (initial_world 0)))
       = trace (initial_world 0) ++ Prepare c :: rest).
Proof.
  intros l l'.
  apply (sunk_rows_are_handed_off 2048 (mkPartitionInfo 5 5) l [[1; 2]%nat; [3]%nat]
                                  (initial_world 0)).
  left. discriminate.
Defined.

(** ** A batch transition, end to end *)

Lemma PrepareBatchData_free_run (k : idx_t) (c : ColumnDataCollection) (w : World) :
  StdMap.find k (batch_data (gstate w)) = None ->
  PrepareBatchData k c w
  = Done tt (mkWorld (set_batch_data (StdMap.place k (Some (prepare_batch c))
                                                   (batch_data (gstate w)))
                                     (gstate w))
                     (trace w ++ [Prepare c; Acquire m_lock; Release m_lock])).
Proof.
  intros Hfree.
  unfold PrepareBatchData, lock_guard, bind, emit, gets, modify, throw, ret, StdMap.insert.
  simpl. rewrite Hfree. simpl. repeat rewrite <- app_assoc. reflexivity.
Qed.

Lemma events_since_self (w : World) (g : BatchCopyToGlobalState) :
  events_since w (mkWorld g (trace w)) = [].
Proof. apply events_since_eq. simpl. rewrite app_nil_r. reflexivity. Qed.

Section TransitionEndToEnd.
Variable STANDARD_VECTOR_SIZE : idx_t.

(** X17. Without a target batch size, a batch transition that finds
    [active_flush] clear and the local batch index free, and that returns
    normally, has prepared the local collection (and nothing else), has put
    the prepared form in the prepared map, and has then written, in map
    order, the entries at the head of that map that are prepared and below
    the watermark; these have left the map, [active_flush] is set, and the
    local state starts the next batch with a fresh collection. *)
Theorem unsized_transition_with_clear_flag
        (info : PartitionInfo) (l l' : BatchCopyToLocalState) (c : ColumnDataCollection)
        (w w' : World) :
  collection l = Some c ->
  batch_size (gstate w) = 0 ->
  active_flush (gstate w) = false ->
  StdMap.find (batch_index l) (batch_data (gstate w)) = None ->
  NextBatch STANDARD_VECTOR_SIZE info l w = Done l' w' ->
  let submitted :=
    StdMap.place (batch_index l) (Some (prepare_batch c)) (batch_data (gstate w)) in
  l' = mkLocal (Some empty_collection) (local_rows_copied l) (next_batch_index info) /\
  batch_data (gstate w') = snd (ready_prefix (min_batch_index info) submitted) /\
  flushed_collections (events_since w w')
  = map prepared_collection (fst (ready_prefix (min_batch_index info) submitted)) /\
  prepared_collections (events_since w w') = [c] /\
  active_flush (gstate w') = true.
Proof.
  intros Hc Hb Hflag Hfree Hdone submitted.
  rewrite (NextBatch_unsized _ info l c w Hc Hb) in Hdone.
  unfold bind at 1 2 in Hdone. rewrite (PrepareBatchData_free_run _ _ _ Hfree) in Hdone.
  match type of Hdone with
  | context [FlushBatchData ?m ?w1] =>
      destruct (FlushBatchData_run m w1) as (evs & Hrun & Hf & Hp & _); [exact Hflag|]
  end.
  rewrite Hrun in Hdone. unfold ret in Hdone.
  inversion Hdone; subst l' w'; clear Hdone.
  cbn [gstate trace batch_data set_batch_data set_active_flush] in *.
  fold submitted in Hf. fold submitted.
  rewrite <- app_assoc, events_since_app.
  rewrite flushed_collections_app, prepared_collections_app, Hf, Hp.
  repeat split.
Qed.

End TransitionEndToEnd.

Lemma unsized_transition_with_clear_flag_witness :
  let p (n : nat) := prepare_batch (mkCollection [[n]]) in
  let w := mkWorld (mkGlobal 0 0 [] [(1, Some (p 1%nat)); (5, Some (p 5%nat))] false) [] in
  let l := mkLocal (Some (mkCollection [[0%nat]])) 1 0 in
  exists l' w',
    NextBatch 2048 (mkPartitionInfo 6 3) l w = Done l' w' /\
    l' = mkLocal (Some empty_collection) 1 6 /\
    batch_data (gstate w') = [(5, Some (p 5%nat))] /\
    flushed_collections (events_since w w') = [mkCollection [[0%nat]]; mkCollection [[1%nat]]] /\
    prepared_collections (events_since w w') = [mkCollection [[0%nat]]] /\
    active_flush (gstate w') = true.
Proof.
  intros p w l.
  pose (l' := mkLocal (Some empty_collection) 1 6).
  pose (w' := world_of (NextBatch 2048 (mkPartitionInfo 6 3) l w)).
  assert (Hdone : NextBatch 2048 (mkPartitionInfo 6 3) l w = Done l' w')
    by (vm_compute; reflexivity).
  exists l', w'. split; [exact Hdone|].
  exact (unsized_transition_with_clear_flag 2048 (mkPartitionInfo 6 3) l l'
           (mkCollection [[0%nat]]) w w' eq_refl eq_refl eq_refl eq_refl Hdone).
Defined.

(** ** With a target batch size, all writing is done by the pass *)

Lemma paired_bind {A B} (m : M A) (k : A -> M B) :
  (forall w, batch_data (gstate w) = [] ->
     exists evs, trace (world_of (m w)) = trace w ++ evs /\
                 flushed_collections evs = prepared_collections evs /\
                 batch_data (gstate (world_of (m w))) = []) ->
  (forall a w, batch_data (gstate w) = [] ->
     exists evs, trace (world_of (k a w)) = trace w ++ evs /\
                 flushed_collections evs = prepared_collections evs /\
                 batch_data (gstate (world_of (k a w))) = []) ->
  forall w, batch_data (gstate w) = [] ->
    exists evs, trace (world_of (bind m k w)) = trace w ++ evs /\
                flushed_collections evs = prepared_collections evs /\
                batch_data (gstate (world_of (bind m k w))) = [].
Proof.
  intros Hm Hk w Hbd. unfold bind.
  destruct (Hm w Hbd) as (evs & Htr & Hpair & Hbd1).
  destruct (m w) as [a w1|e w1]; simpl in *.
  - destruct (Hk a w1 Hbd1) as (evs' & Htr' & Hpair' & Hbd2).
    exists (evs ++ evs'). split; [rewrite Htr', Htr, app_assoc; reflexivity|].
    split; [|exact Hbd2].
    rewrite flushed_collections_app, prepared_collections_app, Hpair, Hpair'. reflexivity.
  - exists evs. auto.
Qed.

Section SizedTransition.
Variable STANDARD_VECTOR_SIZE : idx_t.

Lemma RepartitionBatches_trace (min_index : idx_t) (final : bool) (w : World) :
  exists result,
    trace (world_of (RepartitionBatches STANDARD_VECTOR_SIZE min_index final w))
    = trace w ++ Acquire m_lock :: prepare_flush_events result ++ [Release m_lock].
Proof.
  rewrite RepartitionBatches_unfold. cbv zeta.
  destruct (raw_batches (gstate w)) as [|e rest]; [exists []; reflexivity|].
  destruct (negb final && _); [exists []; reflexivity|].
  destruct (gather (e :: rest) min_index None []) as [[mx cols] rem].
  destruct (repartition STANDARD_VECTOR_SIZE (batch_size (gstate w)) cols None [])
    as [[cur|] result]; [|exists []; reflexivity].
  destruct (Count cur >? 0); [|exists result; reflexivity].
  destruct (final || _); [exists (result ++ [cur]); reflexivity|].
  destruct mx; [exists result | exists []]; reflexivity.
Qed.

(** X18. With a target batch size and an empty prepared map, a batch
    transition, however it ends, has passed to [flush_batch] exactly the
    collections it has passed to [prepare_batch], in the same order, and the
    prepared map is still empty: nothing is ever written from the prepared
    map in this mode. *)
Theorem sized_transition_writes_what_it_prepares
        (info : PartitionInfo) (l : BatchCopyToLocalState) (w : World) :
  batch_size (gstate w) <> 0 ->
  batch_data (gstate w) = [] ->
  let w' := world_of (NextBatch STANDARD_VECTOR_SIZE info l w) in
  flushed_collections (events_since w w') = prepared_collections (events_since w w') /\
  batch_data (gstate w') = [].
Proof.
  intros Hb Hbd w'.
  assert (H : exists evs, trace w' = trace w ++ evs /\
                          flushed_collections evs = prepared_collections evs /\
                          batch_data (gstate w') = []).
  { subst w'. destruct (collection l) as [c|] eqn:Hc.
    - rewrite (NextBatch_sized _ info l c w Hc Hb). clear Hb. revert w Hbd.
      apply paired_bind;
        [|intros a w Hbd; exists []; simpl; rewrite app_nil_r; auto].
      apply paired_bind; [apply paired_bind; [|intros _] | intros _].
      + intros w Hbd.
        pose proof (AddBatchData_keeps_batch_data (batch_index l) c w) as Hk.
        exists [Acquire m_lock; Release m_lock]. split; [|split; [reflexivity | congruence]].
        unfold AddBatchData, lock_guard, bind, emit, gets, modify, throw, ret.
        simpl. destruct (negb _); simpl; rewrite <- app_assoc; reflexivity.
      + intros w Hbd.
        pose proof (RepartitionBatches_keeps_batch_data STANDARD_VECTOR_SIZE
                      (min_batch_index info) false w) as Hk.
        destruct (RepartitionBatches_trace (min_batch_index info) false w) as [result Htr].
        eexists. split; [exact Htr|]. split; [|congruence].
        rewrite flushed_of_pass_events, prepared_of_pass_events. reflexivity.
      + intros w Hbd.
        destruct (FlushBatchData_on_empty (min_batch_index info) w Hbd)
          as (evs & w2 & Hrun & Htr & Hf & Hp & Hbd2 & _).
        rewrite Hrun. exists evs. simpl. rewrite Hf, Hp. auto.
    - unfold NextBatch. rewrite Hc. exists []. simpl. rewrite app_nil_r. auto. }
  destruct H as (evs & Htr & Hpair & Hbd').
  rewrite (events_since_eq _ _ _ Htr). auto.
Qed.

End SizedTransition.

Lemma sized_transition_writes_what_it_prepares_witness :
  let w' := world_of (NextBatch 2 (mkPartitionInfo 2 2)
                                (mkLocal (Some (mkCollection [[3; 4]%nat; [5]%nat])) 5 1)
                                (mkWorld (mkGlobal 0 4 [(0, mkCollection [[1; 2]%nat])] []
                                                   false) [])) in
  flushed_collections
    (events_since (mkWorld (mkGlobal 0 4 [(0, mkCollection [[1; 2]%nat])] [] false) []) w')
  = prepared_collections
      (events_since (mkWorld (mkGlobal 0 4 [(0, mkCollection [[1; 2]%nat])] [] false) []) w') /\
  batch_data (gstate w') = [].
Proof.
  apply (sized_transition_writes_what_it_prepares 2 (mkPartitionInfo 2 2)
           (mkLocal (Some (mkCollection [[3; 4]%nat; [5]%nat])) 5 1)
           (mkWorld (mkGlobal 0 4 [(0, mkCollection [[1; 2]%nat])] [] false) []));
    [discriminate | reflexivity].
Defined.

(** ** What a pass leaves below the watermark *)

Section Backpressure.
Variable STANDARD_VECTOR_SIZE : idx_t.
Variable B : idx_t.
Hypothesis B_positive : 0 < B.

Lemma append_chunks_accumulator_small chunks : forall cur result,
  Count cur < B -> Count (fst (append_chunks B chunks cur result)) < B.
Proof.
  induction chunks as [|ch rest IH]; intros cur result Hcur; simpl; [exact Hcur|].
  destruct (Count (Append cur ch) <? B) eqn:E; apply IH; [lia | rewrite Count_empty; lia].
Qed.

Lemma repartition_accumulator_small collections : forall cur result,
  match cur with Some c => Count c < B | None => True end ->
  match fst (repartition STANDARD_VECTOR_SIZE B collections cur result) with
  | Some c => Count c < B
  | None => True
  end.
Proof.
  induction collections as [|c rest IH]; intros cur result Hcur; simpl; [exact Hcur|].
  destruct cur as [cur|].
  - apply IH. apply append_chunks_accumulator_small. exact Hcur.
  - destruct (CorrectSizeForBatch STANDARD_VECTOR_SIZE (Count c) B); [apply IH; exact I|].
    destruct (Count c <? B) eqn:E; apply IH; [lia|].
    apply append_chunks_accumulator_small. rewrite Count_empty. lia.
Qed.

End Backpressure.

Lemma rows_below_all_above (min_index : idx_t) (m : StdMap.t ColumnDataCollection) :
  Forall (fun e => min_index <= fst e) m -> rows_below min_index m = 0.
Proof.
  induction 1 as [|[k c] rest Hk Hrest IH]; simpl; [reflexivity|].
  simpl in Hk. assert ((k <? min_index) = false) as -> by lia. rewrite IH. reflexivity.
Qed.

Lemma gather_remaining_above (min_index : idx_t) (raw : StdMap.t ColumnDataCollection)
      mx cols remaining :
  StdMap.ordered raw ->
  gather raw min_index None [] = (mx, cols, remaining) ->
  Forall (fun e => min_index <= fst e) remaining.
Proof.
  intros Hord Hg.
  destruct (gather_spec _ _ _ _ _ _ _ Hg) as (drained & Hraw & _).
  pose proof (gather_remaining_head _ _ _ _ _ _ _ Hg) as Hhead.
  rewrite Hraw in Hord. apply ordered_app_inv in Hord.
  destruct remaining as [|[k v] rest]; [constructor|].
  constructor; [exact Hhead|].
  apply (Forall_impl _ (P := fun e => k < fst e)); [intros e He; lia|].
  apply ordered_from_all_above. exact Hord.
Qed.

Lemma candidate_rows_scan_exact (min_index : idx_t) (m : StdMap.t ColumnDataCollection) :
  StdMap.ordered m -> rows_below min_index m < 2 ^ 64 ->
  candidate_rows_scan m min_index 0 = rows_below min_index m.
Proof.
  intros Hord Hsum. destruct m as [|[k c] rest]; [reflexivity|].
  apply (candidate_rows_scan_ordered_from min_index ((k, c) :: rest) (k - 1) 0);
    [simpl; split; [lia | exact Hord] | lia | lia].
Qed.

Section BackpressurePass.
Variable STANDARD_VECTOR_SIZE : idx_t.

(** X19. With a positive target batch size and a raw map in key order whose
    rows below [min_index] number less than 2^64, a pass that is not final
    and returns normally leaves fewer rows below [min_index] in the raw map
    than the target batch size: either it did not go ahead because there
    were too few, or all that is left below [min_index] is the accumulator
    it put back. *)
Theorem pass_leaves_less_than_target_below_watermark
        (min_index : idx_t) (w w' : World) :
  StdMap.ordered (raw_batches (gstate w)) ->
  0 < batch_size (gstate w) ->
  rows_below min_index (raw_batches (gstate w)) < 2 ^ 64 ->
  RepartitionBatches STANDARD_VECTOR_SIZE min_index false w = Done tt w' ->
  rows_below min_index (raw_batches (gstate w')) < batch_size (gstate w).
Proof.
  intros Hord HB Hsum.
  pose proof (candidate_rows_scan_exact min_index _ Hord Hsum) as Hscan.
  rewrite RepartitionBatches_unfold. cbv zeta. cbn [negb andb].
  destruct (raw_batches (gstate w)) as [|e rest] eqn:Eraw.
  { intros H. apply Done_world_inj in H. subst w'. simpl. rewrite Eraw. simpl. exact HB. }
  destruct (candidate_rows_scan (e :: rest) min_index 0 <? batch_size (gstate w)) eqn:Eguard.
  { intros H. apply Done_world_inj in H. subst w'.
    cbn [gstate]. rewrite Eraw. lia. }
  destruct (gather (e :: rest) min_index None []) as [[mx cols] rem] eqn:Hg.
  pose proof (gather_remaining_above _ _ _ _ _ Hord Hg) as Habove.
  pose proof (rows_below_all_above _ _ Habove) as Hrem.
  pose proof (repartition_accumulator_small STANDARD_VECTOR_SIZE (batch_size (gstate w)) HB
                                            cols None [] I) as Hsmall.
  destruct (repartition STANDARD_VECTOR_SIZE (batch_size (gstate w)) cols None [])
    as [[cur|] result] eqn:Hrep; [|discriminate].
  simpl in Hsmall.
  destruct (Count cur >? 0).
  - cbn [orb]. destruct (CorrectSizeForBatch _ _ _).
    + intros H. apply Done_world_inj in H. subst w'. simpl. lia.
    + destruct mx as [k|]; [|discriminate].
      assert (Hcols : cols <> []).
      { intros ->. simpl in Hrep. discriminate. }
      destruct (gather_max_batch_index _ _ _ _ _ Hg Hcols)
        as (k0 & front & ck & Hk0 & Hsplit & _).
      inversion Hk0; subst k0; clear Hk0.
      assert (Hfrom : StdMap.ordered_from k rem).
      { rewrite Hsplit in Hord. exact (ordered_app_cons_inv _ _ _ _ Hord). }
      intros H. apply Done_world_inj in H. subst w'.
      cbn [gstate raw_batches set_raw_batches]. rewrite (assign_front k cur rem Hfrom).
      simpl. rewrite Hrem. pose proof (Count_nonneg cur).
      destruct (k <? min_index); lia.
  - intros H. apply Done_world_inj in H. subst w'. simpl. lia.
Qed.

End BackpressurePass.

Lemma pass_leaves_less_than_target_below_watermark_witness :
  exists w',
    RepartitionBatches 2 2 false two_raw_batches = Done tt w' /\
    rows_below 2 (raw_batches (gstate w')) < batch_size (gstate two_raw_batches).
Proof.
  assert (Hin : StdMap.ordered (raw_batches (gstate two_raw_batches))) by (simpl; lia).
  assert (HB : 0 < batch_size (gstate two_raw_batches)) by (simpl; lia).
  assert (Hsum : rows_below 2 (raw_batches (gstate two_raw_batches)) < 2 ^ 64)
    by (vm_compute; reflexivity).
  eexists. split; [vm_compute; reflexivity|].
  exact (pass_leaves_less_than_target_below_watermark 2 2 two_raw_batches _
           Hin HB Hsum eq_refl).
Defined.
